(** * AtomKV: the database engine of [database.go]

    A shallow embedding of the engine of skeeto/atomkv (the store, the
    subscription registry, the notifier and the exported operations) and
    the properties of its specification.

    The engine is a single goroutine ([dispatch]) that owns the three maps
    of [Database] and serves one request at a time.  The embedding therefore
    is sequential: every exported operation is a function on the [World]
    (the database together with the channels the Go heap holds), and a run
    of the program is a list of operations in the order [dispatch] receives
    them. *)

From Stdlib Require Import ZArith Ascii String Lia.
From stdpp Require Import gmap strings list fin_maps sorting.

Local Open Scope Z_scope.
#[local] Set Warnings "-clear-no-such-hyp".

(** ** Go's [int] (64 bits, two's complement) *)

Definition int_min : Z := - 2 ^ 63.
Definition int_max : Z := 2 ^ 63 - 1.

(** The value of a mathematical integer once stored in an [int]. *)
Definition int_wrap (z : Z) : Z := (z + 2 ^ 63) mod 2 ^ 64 - 2 ^ 63.

(** [a + b] on [int]. *)
Definition int_add (a b : Z) : Z := int_wrap (a + b).
Arguments int_wrap : simpl never.
Arguments int_add : simpl never.

(** ** Results of code that can panic *)

Inductive res (A : Type) : Type :=
| Ok (a : A)
| Panic (msg : string)
| OutOfFuel.
Arguments Ok {A} a.
Arguments Panic {A} msg.
Arguments OutOfFuel {A}.

Global Instance res_ret : MRet res := λ A a, Ok a.

Global Instance res_bind : MBind res := λ A B k m,
  match m with
  | Ok a => k a
  | Panic msg => Panic msg
  | OutOfFuel => OutOfFuel
  end.

(** ** Go strings: byte sequences *)

(** [s[:n]]: panics unless [0 <= n <= len(s)]. *)
Definition slice_to (s : string) (n : Z) : res string :=
  if (n <? 0) || (Z.of_nat (String.length s) <? n)
  then Panic "slice bounds out of range"
  else Ok (substring 0 (Z.to_nat n) s).

(** [strings.LastIndexByte]: scans from the end for byte [c]. *)
Fixpoint last_index_from (n : nat) (s : string) (c : ascii) : Z :=
  match n with
  | O => -1
  | S i =>
      match String.get i s with
      | Some a => if Ascii.eqb a c then Z.of_nat i else last_index_from i s c
      | None => last_index_from i s c
      end
  end.

Definition LastIndexByte (s : string) (c : ascii) : Z :=
  last_index_from (String.length s) s c.

(** ** Data model *)

Record Update : Type := mkUpdate {
  Key : string;
  Value : string;
  Revision : Z
}.

Record entry : Type := mkEntry {
  value : string;
  revision : Z
}.

(** A channel value is [nil] or a reference to a channel of the heap. *)
Abbreviation loc := positive (only parsing).
Abbreviation chan := (option loc) (only parsing).
Definition nil : chan := None.

(** A buffered channel: its capacity and the elements queued in it. *)
Record channel : Type := mkChannel {
  cap : nat;
  buf : list Update
}.

Record subscriber : Type := mkSubscriber {
  path : string;
  ch : chan
}.

Record Database : Type := mkDatabase {
  values : gmap string entry;
  subscriptions : gmap string (gset chan);
  subscribers : gmap chan subscriber;
  buflen : Z;
  expiry : Z
}.

(** What the program owns: the database, the channels made so far, and the
    keys for which an [expire] goroutine was started ([go d.expire(key)]),
    latest first. *)
Record World : Type := mkWorld {
  db : Database;
  heap : gmap loc channel;
  expiring : list string
}.

Definition defaultBuflen : Z := 64.
Definition defaultExpiry : Z := 3600 * 24 * 7 * 1000000000.

Definition NewDatabase (buflen expiry : Z) : World :=
  let buflen := if buflen =? 0 then defaultBuflen else buflen in
  let expiry := if expiry =? 0 then defaultExpiry else expiry in
  {| db := {| values := ∅; subscriptions := ∅; subscribers := ∅;
              buflen := buflen; expiry := expiry |};
     heap := ∅;
     expiring := [] |}.

Definition with_values (v : gmap string entry) (w : World) : World :=
  let d := db w in
  {| db := {| values := v; subscriptions := subscriptions d;
              subscribers := subscribers d;
              buflen := buflen d; expiry := expiry d |};
     heap := heap w; expiring := expiring w |}.

Definition with_registry (s : gmap string (gset chan))
    (r : gmap chan subscriber) (w : World) : World :=
  let d := db w in
  {| db := {| values := values d; subscriptions := s; subscribers := r;
              buflen := buflen d; expiry := expiry d |};
     heap := heap w; expiring := expiring w |}.

Definition with_heap (h : gmap loc channel) (w : World) : World :=
  {| db := db w; heap := h; expiring := expiring w |}.

(** [go d.expire(key)] *)
Definition go_expire (key : string) (w : World) : World :=
  {| db := db w; heap := heap w; expiring := key :: expiring w |}.

(** ** Channels *)

(** [select { case s <- u: default: }]: the send happens when the buffer
    has room, otherwise (or on a [nil] channel) the default case runs and
    the element is dropped.  No receiver waits on a channel with an empty
    buffer in this sequential model, so a channel of capacity 0 never
    accepts. *)
Definition try_send (c : channel) (u : Update) : channel :=
  if (length (buf c) <? cap c)%nat
  then {| cap := cap c; buf := buf c ++ [u] |}
  else c.

Definition send (s : chan) (u : Update) (h : gmap loc channel)
    : gmap loc channel :=
  match s with
  | None => h
  | Some l =>
      match h !! l with
      | Some c => <[l := try_send c u]> h
      | None => h
      end
  end.

(** [make(chan Update, n)]: a fresh channel; panics on a negative size. *)
Definition make_chan (n : Z) (h : gmap loc channel)
    : res (chan * gmap loc channel) :=
  if n <? 0 then Panic "makechan: size out of range"
  else
    let l := fresh (dom h) in
    Ok (Some l, <[l := {| cap := Z.to_nat n; buf := [] |}]> h).

(** [<-ch] by the owner of a handle, when an element is queued. *)
Definition recv (s : chan) (h : gmap loc channel)
    : option (Update * gmap loc channel) :=
  match s with
  | None => None
  | Some l =>
      match h !! l with
      | Some c =>
          match buf c with
          | u :: rest => Some (u, <[l := {| cap := cap c; buf := rest |}]> h)
          | [] => None
          end
      | None => None
      end
  end.

(** ** The engine *)

Definition zero_entry : entry := {| value := ""; revision := 0 |}.
Definition zero_subscriber : subscriber := {| path := ""; ch := nil |}.

(** [e, ok := d.values[key]] *)
Definition get (key : string) (w : World) : entry * bool :=
  match values (db w) !! key with
  | Some e => (e, true)
  | None => (zero_entry, false)
  end.

(** The body of [for s := range m] in [notify]: [s] receives [u] unless it
    was seen before in this call. *)
Definition deliver (u : Update) (acc : gset chan * gmap loc channel)
    (s : chan) : gset chan * gmap loc channel :=
  if decide (s ∈ acc.1) then acc
  else ({[s]} ∪ acc.1, send s u acc.2).

(** The loop of [notify].  [fuel] bounds the number of iterations.  Next to
    the heap, the result lists the values of [part] at which
    [d.subscriptions] was looked up, in order.  Go ranges over [m] in an
    unspecified order; the enumeration [elements m] stands for it (see
    [deliver_order]). *)
Fixpoint notify_loop (fuel : nat) (d : Database) (u : Update) (part : string)
    (seen : gset chan) (h : gmap loc channel)
    : res (list string * gmap loc channel) :=
  match fuel with
  | O => OutOfFuel
  | S fuel =>
      let acc :=
        match subscriptions d !! part with
        | Some m => foldl (deliver u) (seen, h) (elements m)
        | None => (seen, h)
        end in
      front ← slice_to part (Z.of_nat (String.length part) - 1);
      let slash := LastIndexByte front "/" in
      if slash =? -1 then Ok ([part], acc.2)
      else
        part' ← slice_to part (slash + 1);
        r ← notify_loop fuel d u part' acc.1 acc.2;
        Ok (part :: r.1, r.2)
  end.

Definition notify (key : string) (e : entry) (w : World)
    : res (list string * World) :=
  r ← notify_loop (S (String.length key)) (db w)
        {| Key := key; Value := value e; Revision := revision e |}
        key ∅ (heap w);
  Ok (r.1, with_heap r.2 w).

Definition set (key val : string) (w : World) : res World :=
  let '(e, ok) := get key w in
  let e := if ok then {| value := value e;
                         revision := int_add (revision e) 1 |} else e in
  let w := if ok then w else go_expire key w in
  let e := {| value := val; revision := revision e |} in
  let w := with_values (<[key := e]> (values (db w))) w in
  r ← notify key e w;
  Ok r.2.

Definition update (key val : string) (rev : Z) (w : World)
    : res (bool * World) :=
  let '(e, ok) := get key w in
  let e := if ok then e else {| value := value e; revision := -1 |} in
  if negb (int_add (revision e) 1 =? rev) then Ok (false, w)
  else
    let w := if ok then w else go_expire key w in
    let e := {| value := val; revision := rev |} in
    let w := with_values (<[key := e]> (values (db w))) w in
    r ← notify key e w;
    Ok (true, r.2).

Definition subscribe (p : string) (c : chan) (w : World) : World :=
  let d := db w in
  let m := default ∅ (subscriptions d !! p) in
  with_registry (<[p := {[c]} ∪ m]> (subscriptions d))
                (<[c := {| path := p; ch := c |}]> (subscribers d)) w.

Definition unsubscribe (c : chan) (w : World) : World :=
  let d := db w in
  let sub := default zero_subscriber (subscribers d !! c) in
  let subscribers' := delete c (subscribers d) in
  match subscriptions d !! path sub with
  | Some m =>
      let m := m ∖ {[ch sub]} in
      if (size m =? 0)%nat
      then with_registry (delete (path sub) (subscriptions d)) subscribers' w
      else with_registry (<[path sub := m]> (subscriptions d)) subscribers' w
  | None =>
      with_registry (delete (path sub) (subscriptions d)) subscribers' w
  end.

Definition validate (key : string) : res unit :=
  match key with
  | String "/" _ => Ok ()
  | _ => Panic "invalid key"
  end.

(** ** The exported operations, as [dispatch] serves them *)

Definition Database_Get (key : string) (w : World)
    : res (string * Z * bool) :=
  _ ← validate key;
  let '(e, ok) := get key w in
  Ok (value e, revision e, ok).

Definition Database_Set (key val : string) (w : World) : res World :=
  _ ← validate key;
  set key val w.

Definition Database_Update (key val : string) (rev : Z) (w : World)
    : res (bool * World) :=
  _ ← validate key;
  update key val rev w.

Definition Database_Delete (key : string) (w : World) : World :=
  with_values (delete key (values (db w))) w.

Definition Database_Subscribe (p : string) (w : World)
    : res (chan * World) :=
  _ ← validate p;
  r ← make_chan (buflen (db w)) (heap w);
  Ok (r.1, subscribe p r.1 (with_heap r.2 w)).

Definition Database_Unsubscribe (c : chan) (w : World) : World :=
  unsubscribe c w.

(** ** The prefixes [notify] visits *)

(** The loop of [notify] without its deliveries: the successive values of
    [part]. *)
Fixpoint walk (fuel : nat) (part : string) : res (list string) :=
  match fuel with
  | O => OutOfFuel
  | S fuel =>
      front ← slice_to part (Z.of_nat (String.length part) - 1);
      let slash := LastIndexByte front "/" in
      if slash =? -1 then Ok [part]
      else
        part' ← slice_to part (slash + 1);
        r ← walk fuel part';
        Ok (part :: r)
  end.

Definition prefixes (key : string) : list string :=
  match walk (S (String.length key)) key with
  | Ok l => l
  | _ => []
  end.

(** The last byte of [s] is a slash. *)
Definition ends_with_slash (s : string) : Prop :=
  String.get (String.length s - 1) s = Some "/"%char.

(** What one iteration of [notify] does with the subscribers of [p]. *)
Definition deliver_at (d : Database) (u : Update)
    (acc : gset chan * gmap loc channel) (p : string)
    : gset chan * gmap loc channel :=
  match subscriptions d !! p with
  | Some m => foldl (deliver u) acc (elements m)
  | None => acc
  end.

(** The handles registered at one of the paths [ps]. *)
Definition listeners (d : Database) (ps : list string) : gset chan :=
  ⋃ ((λ p, default ∅ (subscriptions d !! p)) <$> ps).

(** The heap once every channel of [seen] was offered [u]. *)
Definition offered (u : Update) (seen : gset chan) (h : gmap loc channel)
    (l : loc) : option channel :=
  if decide (Some l ∈ seen) then (λ c, try_send c u) <$> h !! l else h !! l.

(** ** Runs of the program *)

(** The requests [dispatch] serves, and a receive on a handle by the
    goroutine that owns it.  An [expire] goroutine only issues requests of
    this list: a [Subscribe] to its key, receives on its handle, and a
    [Delete] of its key. *)
Inductive op : Type :=
| OpGet (key : string)
| OpSet (key val : string)
| OpUpdate (key val : string) (rev : Z)
| OpDelete (key : string)
| OpSubscribe (p : string)
| OpUnsubscribe (c : chan)
| OpRecv (c : chan).

Inductive response : Type :=
| RGet (val : string) (rev : Z) (ok : bool)
| RUpdate (ok : bool)
| RSubscribe (c : chan)
| RRecv (u : Update)
| RDone.

(** One operation.  A receive on a handle with nothing queued leaves the
    world as it is: the receiver keeps waiting. *)
Definition exec (o : op) (w : World) : res (response * World) :=
  match o with
  | OpGet key => r ← Database_Get key w; Ok (RGet r.1.1 r.1.2 r.2, w)
  | OpSet key val => w' ← Database_Set key val w; Ok (RDone, w')
  | OpUpdate key val rev =>
      r ← Database_Update key val rev w; Ok (RUpdate r.1, r.2)
  | OpDelete key => Ok (RDone, Database_Delete key w)
  | OpSubscribe p => r ← Database_Subscribe p w; Ok (RSubscribe r.1, r.2)
  | OpUnsubscribe c => Ok (RDone, Database_Unsubscribe c w)
  | OpRecv c =>
      match recv c (heap w) with
      | Some (u, h) => Ok (RRecv u, with_heap h w)
      | None => Ok (RDone, w)
      end
  end.

(** The worlds the program can be in. *)
Inductive reachable : World → Prop :=
| reachable_new (b e : Z) : reachable (NewDatabase b e)
| reachable_step (w : World) (o : op) (r : response) (w' : World) :
    reachable w → exec o w = Ok (r, w') → reachable w'.

(** [o], answered by [r], is a successful mutation of [key]. *)
Definition mutation_of (key : string) (o : op) (r : response) : bool :=
  match o, r with
  | OpSet k _, _ => bool_decide (k = key)
  | OpUpdate k _ _, RUpdate true => bool_decide (k = key)
  | _, _ => false
  end.

(** The revision of [key], [-1] when the key does not exist. *)
Definition current (key : string) (w : World) : Z :=
  match values (db w) !! key with
  | Some e => revision e
  | None => -1
  end.

(** The revisions of [key] seen after each of its successful mutations in
    a run.  A call that panics does so in its caller, before a request is
    sent: the world stays as it is. *)
Fixpoint observed (key : string) (ops : list op) (w : World) : list Z :=
  match ops with
  | [] => []
  | o :: ops =>
      match exec o w with
      | Ok (r, w') =>
          (if mutation_of key o r then [current key w'] else [])
            ++ observed key ops w'
      | _ => observed key ops w
      end
  end.

(** The event [notify] broadcasts for the entry stored at [key]. *)
Definition event (key : string) (w : World) : Update :=
  let e := (get key w).1 in
  {| Key := key; Value := value e; Revision := revision e |}.

(** The events broadcast by a run of [Set] calls, and the world after it. *)
Fixpoint set_all (kvs : list (string * string)) (w : World)
    : res (list Update * World) :=
  match kvs with
  | [] => Ok ([], w)
  | (key, val) :: kvs =>
      w' ← Database_Set key val w;
      r ← set_all kvs w';
      Ok (event key w' :: r.1, r.2)
  end.

(** The registry's two indexes agree, no path has an empty set of
    handles, every subscriber is filed under its own handle, the registered
    handles are channels of the heap, and the registered paths passed
    [validate]. *)
Record registry_ok (w : World) : Prop := {
  registry_nonempty : ∀ p m, subscriptions (db w) !! p = Some m → m ≠ ∅;
  registry_agree : ∀ c p,
    (∃ m, subscriptions (db w) !! p = Some m ∧ c ∈ m) ↔
    path <$> subscribers (db w) !! c = Some p;
  registry_self : ∀ c s, subscribers (db w) !! c = Some s → ch s = c;
  registry_alloc : ∀ c s,
    subscribers (db w) !! c = Some s → ∃ l, c = Some l ∧ l ∈ dom (heap w);
  registry_valid : ∀ p,
    is_Some (subscriptions (db w) !! p) → validate p = Ok ()
}.

(** The world after a mutation of [key] that stores [e] and leaves the
    channels as [h]. *)
Definition stored (key : string) (e : entry) (h : gmap loc channel)
    (w : World) : World :=
  with_heap h
    (with_values (<[key := e]> (values (db w)))
       (match values (db w) !! key with
        | Some _ => w
        | None => go_expire key w
        end)).

(** [q] is strictly shorter than [p]. *)
Definition shorter (p q : string) : Prop :=
  (String.length q < String.length p)%nat.

(** The elements queued in the channel of a handle. *)
Definition queued (c : chan) (w : World) : option (list Update) :=
  l ← c; buf <$> heap w !! l.

(** The world after a run: the operations are served in order; a call that
    panics does so in its caller and leaves the world as it is. *)
Definition run (ops : list op) (w : World) : World :=
  foldl (λ w o, match exec o w with Ok (_, w') => w' | _ => w end) w ops.

(** ** Key syntax ([main.go]) *)

(** [s[i]]: the byte at [i]; panics unless [0 <= i < len(s)]. *)
Definition byte_of (a : ascii) : Z := Z.of_N (N_of_ascii a).

Definition byte_at (s : string) (i : Z) : res Z :=
  if (i <? 0) || (Z.of_nat (String.length s) <=? i)
  then Panic "index out of range"
  else
    match String.get (Z.to_nat i) s with
    | Some a => Ok (byte_of a)
    | None => Panic "index out of range"
    end.

(** [s[n:]]: panics unless [0 <= n <= len(s)]. *)
Definition slice_from (s : string) (n : Z) : res string :=
  if (n <? 0) || (Z.of_nat (String.length s) <? n)
  then Panic "slice bounds out of range"
  else Ok (substring (Z.to_nat n) (String.length s - Z.to_nat n) s).

(** [utf8.RuneError], the rune a [range] over a string yields for a byte
    that does not start a well-formed UTF-8 sequence. *)
Definition RuneError : Z := 65533.

(** A continuation byte, [0x80..0xBF]. *)
Definition is_cont (b : Z) : bool := (128 <=? b) && (b <=? 191).

(** The rune a [range] over a string decodes at the start of [s], and the
    number of bytes it takes: one byte below [0x80]; a well-formed sequence
    of two, three or four bytes (shortest form, no surrogates, at most
    [U+10FFFF]); otherwise [RuneError] and one byte.  A byte past the end
    of [s] reads as [-1]. *)
Definition decode_rune (s : string) : Z * nat :=
  let b (k : nat) :=
    match String.get k s with Some a => byte_of a | None => -1 end in
  let b0 := b 0%nat in
  let b1 := b 1%nat in
  let b2 := b 2%nat in
  let b3 := b 3%nat in
  if b0 <? 128 then (b0, 1%nat)
  else if (194 <=? b0) && (b0 <=? 223) then
    if is_cont b1 then ((b0 - 192) * 64 + (b1 - 128), 2%nat)
    else (RuneError, 1%nat)
  else if (224 <=? b0) && (b0 <=? 239) then
    let lo := if b0 =? 224 then 160 else 128 in
    let hi := if b0 =? 237 then 159 else 191 in
    if (lo <=? b1) && (b1 <=? hi) && is_cont b2
    then ((b0 - 224) * 4096 + (b1 - 128) * 64 + (b2 - 128), 3%nat)
    else (RuneError, 1%nat)
  else if (240 <=? b0) && (b0 <=? 244) then
    let lo := if b0 =? 240 then 144 else 128 in
    let hi := if b0 =? 244 then 143 else 191 in
    if (lo <=? b1) && (b1 <=? hi) && is_cont b2 && is_cont b3
    then ((b0 - 240) * 262144 + (b1 - 128) * 4096 + (b2 - 128) * 64
          + (b3 - 128), 4%nat)
    else (RuneError, 1%nat)
  else (RuneError, 1%nat).

Section keys.

(** [unicode.IsLetter] and [unicode.IsDigit]: the tables of the Go library,
    taken as given. *)
Variable IsLetter IsDigit : Z → bool.

(** The loop [for i, r := range tail] of [validKey], from byte index [i].
    [Ok false] is its [return false]; [Ok true] is the loop running to the
    end of [tail]. *)
Fixpoint validKey_loop (fuel : nat) (tail : string) (i : nat) : res bool :=
  match fuel with
  | O => OutOfFuel
  | S fuel =>
      if (String.length tail <=? i)%nat then Ok true
      else
        let '(r, width) :=
          decode_rune (substring i (String.length tail - i) tail) in
        if r =? 47 then
          b ← byte_at tail (Z.of_nat i - 1);
          if b =? 47 then Ok false
          else validKey_loop fuel tail (i + width)
        else if negb (IsLetter r) && negb (IsDigit r)
                && negb (r =? 45) && negb (r =? 95) then Ok false
        else validKey_loop fuel tail (i + width)
  end.

Definition validKey (key : string) : res bool :=
  if (String.length key <? 2)%nat then Ok false
  else
    b0 ← byte_at key 0;
    if negb (b0 =? 47) then Ok false
    else
      tail ← slice_from key 1;
      ok ← validKey_loop (S (String.length tail)) tail 0;
      if (ok : bool) then
        last ← byte_at key (Z.of_nat (String.length key) - 1);
        Ok (negb (last =? 47))
      else Ok false.

Definition validPath (p : string) : res bool :=
  if (String.length p =? 0)%nat then Ok false
  else
    last ← byte_at p (Z.of_nat (String.length p) - 1);
    if last =? 47 then validKey (p +:+ "_") else validKey p.

End keys.

(** No two slashes in a row. *)
Definition no_double_slash (s : string) : Prop :=
  ∀ i, ¬ (String.get i s = Some "/"%char ∧
          String.get (S i) s = Some "/"%char).

(** The ASCII letters, digits and key bytes: what [unicode.IsLetter] and
    [unicode.IsDigit] accept below [0x80], and the bytes [validKey] lets
    through between slashes. *)
Definition letter_byte (b : Z) : bool :=
  ((65 <=? b) && (b <=? 90)) || ((97 <=? b) && (b <=? 122)).
Definition digit_byte (b : Z) : bool := (48 <=? b) && (b <=? 57).
Definition key_byte (b : Z) : bool :=
  letter_byte b || digit_byte b || (b =? 45) || (b =? 95).

Definition ascii_only (s : string) : Prop :=
  ∀ i a, String.get i s = Some a → byte_of a < 128.

(** The key syntax of the README on ASCII strings: a slash, then segments
    of letters, digits, dashes and underscores separated by single slashes,
    with no slash at the end. *)
Definition well_formed_key (key : string) : Prop :=
  (2 ≤ String.length key)%nat ∧
  String.get 0 key = Some "/"%char ∧
  String.get (String.length key - 1) key ≠ Some "/"%char ∧
  no_double_slash key ∧
  ∀ i a, String.get i key = Some a →
         a = "/"%char ∨ key_byte (byte_of a) = true.

(** * Properties *)

Section strings.

Lemma substring_0_length (m : nat) (s : string) :
  String.length (substring 0 m s) = Nat.min m (String.length s).
Proof.
  revert m; induction s as [|a s IH]; intros [|m]; simpl; auto.
Qed.

Lemma substring_0_get (i m : nat) (s : string) :
  (i < m)%nat → String.get i (substring 0 m s) = String.get i s.
Proof.
  intros Hi. rewrite (substring_correct1 s 0 m i Hi).
  by rewrite Nat.add_0_r.
Qed.

Lemma substring_0_twice (a b : nat) (s : string) :
  (a ≤ b)%nat → substring 0 a (substring 0 b s) = substring 0 a s.
Proof.
  revert a b; induction s as [|x s IH]; intros [|a] [|b] Hab; simpl;
    try done; try lia.
  f_equal. apply IH. lia.
Qed.

Lemma last_index_from_sound (n : nat) (s : string) (c : ascii) :
  last_index_from n s c = -1 ∨
  ∃ i : nat, last_index_from n s c = Z.of_nat i ∧ (i < n)%nat ∧
             String.get i s = Some c.
Proof.
  induction n as [|n IH]; simpl; [by left|].
  destruct (String.get n s) as [a|] eqn:Hget.
  - destruct (Ascii.eqb_spec a c) as [->|Hne].
    + right. exists n. split_and!; [done | lia | done].
    + destruct IH as [IH|(i & ? & ? & ?)]; [by left|].
      right. exists i. split_and!; [done | lia | done].
  - destruct IH as [IH|(i & ? & ? & ?)]; [by left|].
    right. exists i. split_and!; [done | lia | done].
Qed.

Lemma last_index_from_complete (n i : nat) (s : string) (c : ascii) :
  (i < n)%nat → String.get i s = Some c → last_index_from n s c ≠ -1.
Proof.
  induction n as [|n IH]; [lia|]. intros Hi Hget. simpl.
  destruct (decide (i = n)) as [->|Hne].
  - rewrite Hget, Ascii.eqb_refl. lia.
  - destruct (String.get n s) as [a|]; [|apply IH; [lia | done]].
    destruct (Ascii.eqb a c); [lia | apply IH; [lia | done]].
Qed.

Lemma last_index_from_max (n i : nat) (s : string) (c : ascii) :
  last_index_from n s c = Z.of_nat i →
  ∀ j, (i < j < n)%nat → String.get j s ≠ Some c.
Proof.
  induction n as [|n IH]; intros Hi j Hj; [lia|]. simpl in Hi.
  destruct (String.get n s) as [a|] eqn:Hget.
  - destruct (Ascii.eqb_spec a c) as [->|Hne].
    + apply Nat2Z.inj in Hi. lia.
    + destruct (decide (j = n)) as [->|]; [congruence|].
      apply IH; [done | lia].
  - destruct (decide (j = n)) as [->|]; [congruence|].
    apply IH; [done | lia].
Qed.

Lemma validate_Ok (key : string) :
  validate key = Ok () ↔ String.get 0 key = Some "/"%char.
Proof.
  destruct key as [|a key]; simpl; [done|].
  split.
  - destruct a as [[] [] [] [] [] [] [] []]; try done.
  - by intros [= ->].
Qed.

Lemma validate_Panic (key : string) :
  validate key = Panic "invalid key" ↔
  key = "" ∨ String.get 0 key ≠ Some "/"%char.
Proof.
  destruct key as [|a key]; simpl; [split; auto|].
  split.
  - destruct a as [[] [] [] [] [] [] [] []]; try done; right; done.
  - intros [?|Hne]; [done|].
    destruct a as [[] [] [] [] [] [] [] []]; try done.
Qed.

End strings.

Section walk.

Lemma slice_to_nat (s : string) (n : nat) :
  (n ≤ String.length s)%nat → slice_to s (Z.of_nat n) = Ok (substring 0 n s).
Proof.
  intros Hn. unfold slice_to.
  destruct (Z.ltb_spec (Z.of_nat n) 0); [lia|].
  destruct (Z.ltb_spec (Z.of_nat (String.length s)) (Z.of_nat n)); [lia|].
  simpl. by rewrite Nat2Z.id.
Qed.

Lemma slice_to_front (s : string) :
  s ≠ "" →
  slice_to s (Z.of_nat (String.length s) - 1)
  = Ok (substring 0 (String.length s - 1) s).
Proof.
  intros Hs. destruct s as [|a s]; [done|].
  replace (Z.of_nat (String.length (String a s)) - 1)
    with (Z.of_nat (String.length (String a s) - 1)) by (simpl; lia).
  apply slice_to_nat. lia.
Qed.

(** One iteration of the loop on a non-empty [part]: either no slash is
    left before the last byte, or the next [part] is the prefix up to and
    including the last such slash. *)
Lemma step_cases (part : string) :
  part ≠ "" →
  let front := substring 0 (String.length part - 1) part in
  (LastIndexByte front "/" = -1 ∧
   ∀ i, (i < String.length part - 1)%nat →
        String.get i part ≠ Some "/"%char) ∨
  (∃ i : nat, LastIndexByte front "/" = Z.of_nat i ∧
     (i < String.length part - 1)%nat ∧
     String.get i part = Some "/"%char ∧
     (∀ j, (i < j < String.length part - 1)%nat →
           String.get j part ≠ Some "/"%char) ∧
     slice_to part (Z.of_nat i + 1) = Ok (substring 0 (S i) part)).
Proof.
  intros Hne front.
  assert (Hlen : String.length front = (String.length part - 1)%nat).
  { unfold front. rewrite substring_0_length. lia. }
  unfold LastIndexByte.
  destruct (last_index_from_sound (String.length front) front "/")
    as [Hno|(i & Hi & Hlt & Hget)].
  - left. split; [done|]. intros i Hi Hget.
    eapply last_index_from_complete; [| |exact Hno].
    + rewrite Hlen. exact Hi.
    + unfold front. by rewrite substring_0_get.
  - right. exists i.
    pose proof (last_index_from_max _ _ _ _ Hi) as Hmax.
    rewrite Hlen in Hlt, Hmax.
    split_and!; [done | done | | |].
    + unfold front in Hget. by rewrite substring_0_get in Hget.
    + intros j Hj Hgetj. apply (Hmax j Hj).
      unfold front. by rewrite substring_0_get by lia.
    + replace (Z.of_nat i + 1) with (Z.of_nat (S i)) by lia.
      apply slice_to_nat. lia.
Qed.

(** [walk] returns for a non-empty [part] when given its length as fuel.
    The list starts with [part]; what follows are the proper prefixes of
    [part] that end with a slash, all of them, from the longest to the
    shortest; and when [part] starts with a slash, the list ends with the
    root. *)
Lemma walk_spec (fuel : nat) (part : string) :
  part ≠ "" → (String.length part ≤ fuel)%nat →
  ∃ tl, walk fuel part = Ok (part :: tl) ∧
    (∀ p, p ∈ tl →
       ends_with_slash p ∧ p ≠ "" ∧
       (String.length p < String.length part)%nat ∧
       p = substring 0 (String.length p) part) ∧
    (∀ i, (i < String.length part - 1)%nat →
       String.get i part = Some "/"%char → substring 0 (S i) part ∈ tl) ∧
    StronglySorted shorter (part :: tl) ∧
    (String.get 0 part = Some "/"%char → last (part :: tl) = Some "/").
Proof.
  revert part. induction fuel as [|fuel IH]; intros part Hne Hfuel.
  { destruct part; [done | simpl in Hfuel; lia]. }
  simpl. rewrite slice_to_front by done. simpl.
  destruct (step_cases part Hne)
    as [[Hno Hnone]|(i & Hi & Hlt & Hget & Hmax & Hsl)].
  - rewrite Hno. simpl. exists []. split_and!; [done | | | |].
    + intros p Hp. by apply elem_of_nil in Hp.
    + intros i Hi Hget. by destruct (Hnone i Hi).
    + repeat constructor.
    + intros H0. simpl. f_equal.
      destruct part as [|a [|b part]]; [done | |].
      * simpl in H0. by injection H0 as ->.
      * exfalso. apply (Hnone 0%nat); [simpl; lia | done].
  - rewrite Hi.
    destruct (Z.eqb_spec (Z.of_nat i) (-1)); [lia|].
    rewrite Hsl. simpl.
    set (part' := substring 0 (S i) part).
    assert (Hlen' : String.length part' = S i).
    { unfold part'. rewrite substring_0_length. lia. }
    destruct (IH part') as (tl & Hw & Htl & Hall & Hsorted & Hlast).
    { intros E. rewrite E in Hlen'. done. }
    { lia. }
    rewrite Hw. simpl. exists (part' :: tl). split_and!; [done | | | |].
    + intros p [->|Hp]%elem_of_cons.
      * split_and!.
        -- unfold ends_with_slash. rewrite Hlen'.
           replace (S i - 1)%nat with i by lia.
           unfold part'. rewrite substring_0_get by lia. done.
        -- intros E. rewrite E in Hlen'. done.
        -- lia.
        -- rewrite Hlen'. done.
      * destruct (Htl p Hp) as (? & ? & Hl & Heq). split_and!; [done..|lia|].
        rewrite Heq at 1. unfold part'.
        apply substring_0_twice. lia.
    + intros j Hj Hgetj.
      destruct (decide (j = i)) as [->|Hji]; [by left|].
      assert (j < i)%nat.
      { destruct (decide (j < i)%nat); [done|].
        destruct (Hmax j); [lia | done]. }
      right. rewrite <- (substring_0_twice (S j) (S i)) by lia.
      apply Hall; [lia|]. unfold part'. by rewrite substring_0_get by lia.
    + constructor; [done|]. constructor; [unfold shorter; lia|].
      apply Forall_forall. intros p Hp.
      destruct (Htl p Hp) as (_ & _ & Hl & _). unfold shorter. lia.
    + intros H0. rewrite last_cons.
      rewrite Hlast; [done|].
      unfold part'. rewrite substring_0_get by lia. done.
Qed.

Lemma prefixes_spec (key : string) :
  key ≠ "" →
  ∃ tl, walk (S (String.length key)) key = Ok (key :: tl) ∧
    prefixes key = key :: tl ∧
    (∀ p, p ∈ tl →
       ends_with_slash p ∧ p ≠ "" ∧
       (String.length p < String.length key)%nat ∧
       p = substring 0 (String.length p) key) ∧
    (∀ i, (i < String.length key - 1)%nat →
       String.get i key = Some "/"%char → substring 0 (S i) key ∈ tl) ∧
    StronglySorted shorter (key :: tl) ∧
    (String.get 0 key = Some "/"%char → last (key :: tl) = Some "/").
Proof.
  intros Hne.
  destruct (walk_spec (S (String.length key)) key Hne)
    as (tl & Hw & H1 & H2 & H3 & H4); [lia|].
  exists tl. unfold prefixes. rewrite Hw. done.
Qed.

(** The loop of [notify] visits the prefixes of [walk] and delivers at each
    of them. *)
Lemma notify_loop_walk (fuel : nat) (d : Database) (u : Update)
    (part : string) (seen : gset chan) (h : gmap loc channel) :
  notify_loop fuel d u part seen h
  = (l ← walk fuel part; Ok (l, (foldl (deliver_at d u) (seen, h) l).2)).
Proof.
  revert part seen h. induction fuel as [|fuel IH]; intros part seen h;
    [done|].
  simpl.
  destruct (slice_to part (Z.of_nat (String.length part) - 1)) as [front| |];
    simpl; [|done..].
  fold (deliver_at d u (seen, h) part).
  destruct (LastIndexByte front "/" =? -1); [done|].
  destruct (slice_to part (LastIndexByte front "/" + 1)) as [part'| |];
    simpl; [|done..].
  rewrite IH.
  destruct (walk fuel part') as [l| |]; simpl; [|done..].
  by destruct (deliver_at d u (seen, h) part).
Qed.

End walk.

Section delivery.

Variable u : Update.
Variable h0 : gmap loc channel.

Lemma deliver_spec (seen : gset chan) (h : gmap loc channel) (s : chan) :
  (∀ x, h !! x = offered u seen h0 x) →
  (deliver u (seen, h) s).1 = seen ∪ {[s]} ∧
  (∀ x, (deliver u (seen, h) s).2 !! x
        = offered u (deliver u (seen, h) s).1 h0 x).
Proof.
  intros Hinv. unfold deliver. simpl.
  destruct (decide (s ∈ seen)) as [Hin|Hnin]; simpl.
  { split; [set_solver | done]. }
  split; [set_solver|].
  intros x. unfold offered.
  destruct s as [l|]; simpl.
  - assert (Hl : h !! l = h0 !! l).
    { rewrite Hinv. unfold offered. by rewrite decide_False. }
    rewrite Hl. destruct (decide (x = l)) as [->|Hne].
    + rewrite decide_True by set_solver.
      destruct (h0 !! l) as [c|] eqn:Hc; simpl.
      * by rewrite lookup_insert_eq.
      * done.
    + transitivity (h !! x).
      { destruct (h0 !! l); [by rewrite lookup_insert_ne | done]. }
      rewrite Hinv. unfold offered.
      destruct (decide (Some x ∈ seen));
        [rewrite decide_True by set_solver
        |rewrite decide_False by set_solver]; done.
  - rewrite Hinv. unfold offered.
    destruct (decide (Some x ∈ seen));
      [rewrite decide_True by set_solver
      |rewrite decide_False by set_solver]; done.
Qed.

Lemma deliver_foldl (l : list chan) (seen : gset chan)
    (h : gmap loc channel) :
  (∀ x, h !! x = offered u seen h0 x) →
  (foldl (deliver u) (seen, h) l).1 = seen ∪ list_to_set l ∧
  (∀ x, (foldl (deliver u) (seen, h) l).2 !! x
        = offered u (foldl (deliver u) (seen, h) l).1 h0 x).
Proof.
  revert seen h. induction l as [|s l IH]; intros seen h Hinv; simpl.
  { split; [set_solver | done]. }
  destruct (deliver_spec seen h s Hinv) as [H1 H2].
  destruct (deliver u (seen, h) s) as [seen' h'] eqn:E. simpl in *.
  destruct (IH seen' h' H2) as [H3 H4].
  split; [rewrite H3, H1; set_solver | done].
Qed.

(** Delivering at the paths [ps], from a heap no channel of which was
    offered [u] yet. *)
Lemma deliver_at_foldl (d : Database) (ps : list string) (seen : gset chan)
    (h : gmap loc channel) :
  (∀ x, h !! x = offered u seen h0 x) →
  (foldl (deliver_at d u) (seen, h) ps).1 = seen ∪ listeners d ps ∧
  (∀ x, (foldl (deliver_at d u) (seen, h) ps).2 !! x
        = offered u (foldl (deliver_at d u) (seen, h) ps).1 h0 x).
Proof.
  revert seen h. induction ps as [|p ps IH]; intros seen h Hinv; simpl.
  { split; [unfold listeners; set_solver | done]. }
  assert (Hstep : (deliver_at d u (seen, h) p).1
                  = seen ∪ default ∅ (subscriptions d !! p) ∧
                  ∀ x, (deliver_at d u (seen, h) p).2 !! x
                       = offered u (deliver_at d u (seen, h) p).1 h0 x).
  { unfold deliver_at. destruct (subscriptions d !! p) as [m|]; simpl.
    - destruct (deliver_foldl (elements m) seen h Hinv) as [H1 H2].
      split; [|done]. rewrite H1. f_equal.
      apply set_eq. intros x. by rewrite elem_of_list_to_set, elem_of_elements.
    - split; [set_solver | done]. }
  destruct Hstep as [H1 H2].
  destruct (deliver_at d u (seen, h) p) as [seen' h'] eqn:E. simpl in *.
  destruct (IH seen' h' H2) as [H3 H4].
  split; [|done]. rewrite H3, H1. unfold listeners. simpl. set_solver.
Qed.

End delivery.

Section order.

Lemma send_comm (x y : chan) (u : Update) (h : gmap loc channel) :
  x ≠ y → send x u (send y u h) = send y u (send x u h).
Proof.
  intros Hne. destruct x as [a|], y as [b|]; simpl; try done.
  assert (Hab : a ≠ b) by congruence.
  assert (Hba : b ≠ a) by congruence.
  destruct (h !! a) as [ca|] eqn:Ha, (h !! b) as [cb|] eqn:Hb; simpl;
    rewrite ?lookup_insert_ne, ?Ha, ?Hb by done; try done.
  by apply insert_insert_ne.
Qed.

Lemma deliver_comm (u : Update) (acc : gset chan * gmap loc channel)
    (x y : chan) :
  deliver u (deliver u acc x) y = deliver u (deliver u acc y) x.
Proof.
  destruct acc as [seen h]. destruct (decide (x = y)) as [->|Hne]; [done|].
  unfold deliver. simpl.
  destruct (decide (x ∈ seen)) as [Hx|Hx], (decide (y ∈ seen)) as [Hy|Hy];
    simpl.
  - by rewrite !decide_True by done.
  - rewrite decide_False by done. simpl.
    by rewrite decide_True by set_solver.
  - rewrite (decide_True (P := y ∈ {[x]} ∪ seen)) by set_solver.
    by rewrite decide_False by done.
  - rewrite !decide_False by set_solver. simpl.
    f_equal; [set_solver|]. by apply send_comm.
Qed.

(** Go ranges over the handles of a level in an unspecified order: every
    enumeration of them gives the result of [elements]. *)
Lemma deliver_order (u : Update) (l1 l2 : list chan)
    (acc : gset chan * gmap loc channel) :
  l1 ≡ₚ l2 → foldl (deliver u) acc l1 = foldl (deliver u) acc l2.
Proof.
  intros Hperm. revert acc.
  induction Hperm as [|x l l' _ IH|x y l|l l' l'' _ IH1 _ IH2];
    intros acc; simpl.
  - done.
  - apply IH.
  - by rewrite deliver_comm.
  - by rewrite IH1.
Qed.

End order.

Section engine.

Lemma offered_empty (u : Update) (h : gmap loc channel) (l : loc) :
  offered u ∅ h l = h !! l.
Proof. unfold offered. by rewrite decide_False by set_solver. Qed.

(** [notify] returns for every non-empty key: it visits [prefixes key] and
    offers the event once to every handle registered at one of them. *)
Lemma notify_spec (key : string) (e : entry) (w : World) :
  key ≠ "" →
  ∃ h', notify key e w = Ok (prefixes key, with_heap h' w) ∧
    ∀ l, h' !! l
         = offered {| Key := key; Value := value e; Revision := revision e |}
             (listeners (db w) (prefixes key)) (heap w) l.
Proof.
  intros Hne. unfold notify. rewrite notify_loop_walk.
  destruct (prefixes_spec key Hne) as (tl & Hw & Hp & _).
  rewrite Hw, Hp. simpl.
  set (u := {| Key := key; Value := value e; Revision := revision e |}).
  destruct (deliver_at_foldl u (heap w) (db w) (key :: tl) ∅ (heap w))
    as [H1 H2].
  { intros x. by rewrite offered_empty. }
  simpl in H1, H2. eexists. split; [reflexivity|].
  intros l. rewrite H2, H1. f_equal. set_solver.
Qed.

Lemma notify_empty (e : entry) (w : World) :
  notify "" e w = Panic "slice bounds out of range".
Proof. reflexivity. Qed.

Lemma set_spec (key val : string) (w : World) :
  key ≠ "" →
  let rev := match values (db w) !! key with
             | Some e => int_add (revision e) 1
             | None => 0
             end in
  ∃ h', set key val w = Ok (stored key {| value := val; revision := rev |} h' w) ∧
    ∀ l, h' !! l
         = offered {| Key := key; Value := val; Revision := rev |}
             (listeners (db w) (prefixes key)) (heap w) l.
Proof.
  intros Hne rev. unfold set, get, stored.
  destruct (values (db w) !! key) as [e0|] eqn:Hk; simpl in *.
  - destruct (notify_spec key {| value := val; revision := rev |}
                (with_values (<[key := {| value := val; revision := rev |}]>
                                (values (db w))) w) Hne) as (h' & Hn & Hh).
    unfold rev in *. rewrite Hn. simpl. eexists. split; [reflexivity|].
    exact Hh.
  - destruct (notify_spec key {| value := val; revision := rev |}
                (with_values (<[key := {| value := val; revision := rev |}]>
                                (values (db w))) (go_expire key w)) Hne)
      as (h' & Hn & Hh).
    unfold rev in *. simpl in *. rewrite Hn. simpl. eexists.
    split; [reflexivity|]. exact Hh.
Qed.

Lemma update_spec (key val : string) (rev : Z) (w : World) :
  key ≠ "" →
  if int_add (current key w) 1 =? rev then
    ∃ h', update key val rev w
          = Ok (true, stored key {| value := val; revision := rev |} h' w) ∧
      ∀ l, h' !! l
           = offered {| Key := key; Value := val; Revision := rev |}
               (listeners (db w) (prefixes key)) (heap w) l
  else update key val rev w = Ok (false, w).
Proof.
  intros Hne. unfold update, get, stored, current.
  destruct (values (db w) !! key) as [e0|] eqn:Hk; cbn [revision value].
  - destruct (int_add (revision e0) 1 =? rev); cbn [negb]; [|done].
    match goal with
    | |- context [notify key ?e ?w'] =>
        destruct (notify_spec key e w' Hne) as (h' & Hn & Hh)
    end.
    rewrite Hn. simpl. eexists. split; [reflexivity|]. exact Hh.
  - destruct (int_add (-1) 1 =? rev); cbn [negb]; [|done].
    match goal with
    | |- context [notify key ?e ?w'] =>
        destruct (notify_spec key e w' Hne) as (h' & Hn & Hh)
    end.
    rewrite Hn. simpl. eexists. split; [reflexivity|]. exact Hh.
Qed.

Lemma validate_nonempty (key : string) : validate key = Ok () → key ≠ "".
Proof. by destruct key. Qed.

End engine.

Section operations.

Lemma int_wrap_small (z : Z) : int_min ≤ z ≤ int_max → int_wrap z = z.
Proof.
  unfold int_min, int_max, int_wrap. intros Hz.
  rewrite Z.mod_small; lia.
Qed.

Lemma int_add_wrap (z : Z) : int_add (int_wrap z) 1 = int_wrap (z + 1).
Proof.
  unfold int_add, int_wrap.
  replace ((z + 2 ^ 63) mod 2 ^ 64 - 2 ^ 63 + 1 + 2 ^ 63)
    with ((z + 2 ^ 63) mod 2 ^ 64 + 1) by lia.
  replace (z + 1 + 2 ^ 63) with ((z + 2 ^ 63) + 1) by lia.
  by rewrite Zplus_mod_idemp_l.
Qed.

Lemma set_revision (key : string) (w : World) :
  match values (db w) !! key with
  | Some e => int_add (revision e) 1
  | None => 0
  end = int_add (current key w) 1.
Proof. unfold current. by destruct (values (db w) !! key). Qed.

(** [Set] on a key that passes [validate] returns, and what it does. *)
Lemma Database_Set_spec (key val : string) (w : World) :
  validate key = Ok () →
  let rev := int_add (current key w) 1 in
  ∃ h', Database_Set key val w
        = Ok (stored key {| value := val; revision := rev |} h' w) ∧
    ∀ l, h' !! l
         = offered {| Key := key; Value := val; Revision := rev |}
             (listeners (db w) (prefixes key)) (heap w) l.
Proof.
  intros Hv rev. unfold Database_Set. rewrite Hv. simpl.
  destruct (set_spec key val w (validate_nonempty key Hv)) as (h' & Hs & Hh).
  rewrite set_revision in Hs, Hh. eauto.
Qed.

(** [Update] on a key that passes [validate] returns, and what it does. *)
Lemma Database_Update_spec (key val : string) (rev : Z) (w : World) :
  validate key = Ok () →
  if int_add (current key w) 1 =? rev then
    ∃ h', Database_Update key val rev w
          = Ok (true, stored key {| value := val; revision := rev |} h' w) ∧
      ∀ l, h' !! l
           = offered {| Key := key; Value := val; Revision := rev |}
               (listeners (db w) (prefixes key)) (heap w) l
  else Database_Update key val rev w = Ok (false, w).
Proof.
  intros Hv. unfold Database_Update. rewrite Hv. simpl.
  exact (update_spec key val rev w (validate_nonempty key Hv)).
Qed.

Lemma Database_Set_inv (key val : string) (w w' : World) :
  Database_Set key val w = Ok w' →
  validate key = Ok () ∧
  ∃ h', w' = stored key {| value := val;
                           revision := int_add (current key w) 1 |} h' w ∧
    ∀ l, h' !! l
         = offered {| Key := key; Value := val;
                      Revision := int_add (current key w) 1 |}
             (listeners (db w) (prefixes key)) (heap w) l.
Proof.
  intros Hs.
  assert (Hv : validate key = Ok ()).
  { unfold Database_Set in Hs. destruct (validate key) as [[]| |]; done. }
  split; [done|].
  destruct (Database_Set_spec key val w Hv) as (h' & Hs' & Hh).
  rewrite Hs in Hs'. injection Hs' as ->. eauto.
Qed.

Lemma Database_Update_inv (key val : string) (rev : Z) (w w' : World)
    (ok : bool) :
  Database_Update key val rev w = Ok (ok, w') →
  validate key = Ok () ∧
  if ok then
    rev = int_add (current key w) 1 ∧
    ∃ h', w' = stored key {| value := val; revision := rev |} h' w ∧
      ∀ l, h' !! l
           = offered {| Key := key; Value := val; Revision := rev |}
               (listeners (db w) (prefixes key)) (heap w) l
  else rev ≠ int_add (current key w) 1 ∧ w' = w.
Proof.
  intros Hu.
  assert (Hv : validate key = Ok ()).
  { unfold Database_Update in Hu. destruct (validate key) as [[]| |]; done. }
  split; [done|].
  pose proof (Database_Update_spec key val rev w Hv) as Hspec.
  destruct (Z.eqb_spec (int_add (current key w) 1) rev) as [Heq|Hne].
  - destruct Hspec as (h' & Hu' & Hh). rewrite Hu in Hu'.
    injection Hu' as -> ->. eauto.
  - rewrite Hu in Hspec. injection Hspec as -> ->. split; [congruence|done].
Qed.

Lemma stored_values (key : string) (e : entry) (h : gmap loc channel)
    (w : World) :
  values (db (stored key e h w)) = <[key := e]> (values (db w)).
Proof. unfold stored. by destruct (values (db w) !! key). Qed.

Lemma stored_registry (key : string) (e : entry) (h : gmap loc channel)
    (w : World) :
  subscriptions (db (stored key e h w)) = subscriptions (db w) ∧
  subscribers (db (stored key e h w)) = subscribers (db w) ∧
  buflen (db (stored key e h w)) = buflen (db w) ∧
  heap (stored key e h w) = h.
Proof. unfold stored. by destruct (values (db w) !! key). Qed.

Lemma stored_current (key : string) (e : entry) (h : gmap loc channel)
    (w : World) :
  current key (stored key e h w) = revision e.
Proof. unfold current. by rewrite stored_values, lookup_insert_eq. Qed.

End operations.

(** C1.  [Update(key, value, r)] on a key the guard accepts returns true
    iff [r] equals [current + 1] in Go's [int] arithmetic, where [current]
    is the stored revision of the key, [-1] when the key is absent (so
    [current + 1] is the mathematical sum whenever the stored revision is
    below the largest [int]).  On success the store maps the key to
    [{value, revision: r}] and is otherwise as before; on failure the
    world is unchanged. *)
Theorem update_compare_and_swap (key val : string) (rev : Z) (w : World) :
  validate key = Ok () →
  ∃ ok w', Database_Update key val rev w = Ok (ok, w') ∧
    (ok = true ↔ rev = int_add (current key w) 1) ∧
    (int_min ≤ current key w < int_max →
     int_add (current key w) 1 = current key w + 1) ∧
    (ok = true →
     values (db w')
     = <[key := {| value := val; revision := rev |}]> (values (db w))) ∧
    (ok = false → w' = w).
Proof.
  intros Hv.
  assert (Hsmall : int_min ≤ current key w < int_max →
                   int_add (current key w) 1 = current key w + 1).
  { intros Hc. unfold int_add. apply int_wrap_small.
    unfold int_min, int_max in *. lia. }
  pose proof (Database_Update_spec key val rev w Hv) as Hspec.
  destruct (Z.eqb_spec (int_add (current key w) 1) rev) as [Heq|Hne].
  - destruct Hspec as (h' & Hu & _).
    exists true, (stored key {| value := val; revision := rev |} h' w).
    split_and!; [done | done | done | |done].
    intros _. apply stored_values.
  - exists false, w. split_and!; [done | | done | done | done].
    split; [done | congruence].
Qed.

Lemma update_compare_and_swap_witness :
  validate "/fib" = Ok () ∧
  ∃ ok w', Database_Update "/fib" "[1,1]" 1 (NewDatabase 0 0) = Ok (ok, w').
Proof.
  split; [reflexivity|].
  destruct (update_compare_and_swap "/fib" "[1,1]" 1 (NewDatabase 0 0))
    as (ok & w' & Hu & _); [reflexivity|].
  exists ok, w'. exact Hu.
Defined.

Section runs.

Lemma unsubscribe_frame (c : chan) (w : World) :
  values (db (unsubscribe c w)) = values (db w) ∧
  heap (unsubscribe c w) = heap w ∧
  buflen (db (unsubscribe c w)) = buflen (db w) ∧
  expiring (unsubscribe c w) = expiring w.
Proof.
  unfold unsubscribe.
  destruct (subscriptions (db w) !! _) as [m|]; [|done].
  by destruct (size _ =? 0)%nat.
Qed.

(** A successful mutation of [key] stores the next revision and notifies. *)
Lemma exec_mutation (key : string) (o : op) (r : response) (w w' : World) :
  exec o w = Ok (r, w') → mutation_of key o r = true →
  validate key = Ok () ∧
  ∃ val h',
    w' = stored key {| value := val;
                       revision := int_add (current key w) 1 |} h' w ∧
    ∀ l, h' !! l
         = offered {| Key := key; Value := val;
                      Revision := int_add (current key w) 1 |}
             (listeners (db w) (prefixes key)) (heap w) l.
Proof.
  intros He Hm. destruct o as [k|k v|k v rev|k|p|c|c]; simpl in Hm; try done.
  - apply bool_decide_eq_true in Hm as ->. simpl in He.
    destruct (Database_Set key v w) as [w1| |] eqn:Hs; simpl in He; [|done..].
    injection He as <- <-.
    destruct (Database_Set_inv key v w w1 Hs) as (Hv & h' & -> & Hh).
    split; [done|]. by exists v, h'.
  - destruct r as [| [] | | |]; try done.
    apply bool_decide_eq_true in Hm as ->. simpl in He.
    destruct (Database_Update key v rev w) as [[ok w1]| |] eqn:Hu;
      simpl in He; [|done..].
    injection He as -> <-.
    destruct (Database_Update_inv key v rev w w1 true Hu)
      as (Hv & -> & h' & -> & Hh).
    split; [done|]. by exists v, h'.
Qed.

(** Every other operation, a [Delete] of [key] apart, leaves the entry of
    [key] as it is. *)
Lemma exec_values_other (key : string) (o : op) (r : response)
    (w w' : World) :
  exec o w = Ok (r, w') → mutation_of key o r = false → o ≠ OpDelete key →
  values (db w') !! key = values (db w) !! key.
Proof.
  intros He Hm Hd. destruct o as [k|k v|k v rev|k|p|c|c]; simpl in *.
  - destruct (Database_Get k w) as [?| |]; simpl in He; [|done..].
    by injection He as <- <-.
  - apply bool_decide_eq_false in Hm.
    destruct (Database_Set k v w) as [w1| |] eqn:Hs; simpl in He; [|done..].
    injection He as <- <-.
    destruct (Database_Set_inv k v w w1 Hs) as (Hv & h' & -> & Hh).
    by rewrite stored_values, lookup_insert_ne.
  - destruct (Database_Update k v rev w) as [[ok w1]| |] eqn:Hu;
      simpl in He; [|done..].
    injection He as <- <-.
    pose proof (Database_Update_inv k v rev w w1 ok Hu) as [Hv Hi].
    destruct ok.
    + apply bool_decide_eq_false in Hm.
      destruct Hi as (_ & h' & -> & _).
      by rewrite stored_values, lookup_insert_ne.
    + by destruct Hi as [_ ->].
  - injection He as <- <-. unfold Database_Delete. simpl.
    apply lookup_delete_ne. congruence.
  - unfold Database_Subscribe in He.
    destruct (validate p) as [[]| |]; simpl in He; [|done..].
    destruct (make_chan _ _) as [[c h]| |]; simpl in He; [|done..].
    by injection He as <- <-.
  - injection He as <- <-. unfold Database_Unsubscribe.
    by destruct (unsubscribe_frame c w) as [-> _].
  - destruct (recv c (heap w)) as [[u h]|]; by injection He as <- <-.
Qed.

(** The revisions seen in a run without a [Delete] of [key], from a world
    in which the revision of [key] is [c] as an [int]. *)
Lemma observed_from (key : string) (ops : list op) (w : World) (c : Z) :
  current key w = int_wrap c → OpDelete key ∉ ops →
  observed key ops w
  = (λ i : nat, int_wrap (c + 1 + Z.of_nat i))
      <$> seq 0 (length (observed key ops w)).
Proof.
  revert w c. induction ops as [|o ops IH]; intros w c Hc Hd; [done|].
  apply not_elem_of_cons in Hd as [Ho Hd]. simpl.
  destruct (exec o w) as [[r w']| |] eqn:He; [|by apply IH..].
  destruct (mutation_of key o r) eqn:Hm.
  - destruct (exec_mutation key o r w w' He Hm) as (_ & v & h' & -> & _).
    set (w' := stored _ _ _ _).
    assert (Hc' : current key w' = int_wrap (c + 1)).
    { unfold w'. by rewrite stored_current, Hc, int_add_wrap. }
    simpl. rewrite Hc'. f_equal; [f_equal; lia|].
    rewrite (IH w' (c + 1) Hc' Hd) at 1.
    rewrite <- fmap_S_seq, <- list_fmap_compose.
    apply list_fmap_ext. intros _ i _. simpl. f_equal. lia.
  - simpl. apply IH; [|done]. rewrite <- Hc. unfold current.
    by rewrite (exec_values_other key o r w w' He Hm).
Qed.

End runs.

(** C2.  The first successful mutation of a key ([Set] or a successful
    [Update] while the key is absent) stores revision 0; a later successful
    mutation stores the previous revision plus one, in Go's [int]
    arithmetic; and in a run that starts with the key absent and has no
    [Delete] of it, the revisions seen after the successful mutations of
    the key are 0, 1, 2, ... in call order (as long as they fit an [int],
    that is for the first 2^63 of them). *)
Theorem revisions_count_up (key : string) (w : World) :
  (∀ o r w', exec o w = Ok (r, w') → mutation_of key o r = true →
     values (db w) !! key = None → current key w' = 0) ∧
  (∀ o r w' e, exec o w = Ok (r, w') → mutation_of key o r = true →
     values (db w) !! key = Some e →
     current key w' = int_add (revision e) 1 ∧
     (int_min ≤ revision e < int_max → current key w' = revision e + 1)) ∧
  (∀ ops, values (db w) !! key = None → OpDelete key ∉ ops →
     let obs := observed key ops w in
     obs = (λ i : nat, int_wrap (Z.of_nat i)) <$> seq 0 (length obs) ∧
     (Z.of_nat (length obs) ≤ 2 ^ 63 →
      obs = Z.of_nat <$> seq 0 (length obs))).
Proof.
  split_and!.
  - intros o r w' He Hm Hk.
    destruct (exec_mutation key o r w w' He Hm) as (_ & v & h' & -> & _).
    rewrite stored_current. simpl. unfold current. by rewrite Hk.
  - intros o r w' e He Hm Hk.
    destruct (exec_mutation key o r w w' He Hm) as (_ & v & h' & -> & _).
    rewrite stored_current. simpl. unfold current. rewrite Hk.
    split; [done|]. intros Hr. unfold int_add. apply int_wrap_small.
    unfold int_min, int_max in *. lia.
  - intros ops Hk Hd obs.
    assert (Hobs : obs = (λ i : nat, int_wrap (Z.of_nat i))
                           <$> seq 0 (length obs)).
    { unfold obs. rewrite (observed_from key ops w (-1)) at 1;
        [|by unfold current; rewrite Hk|done].
      apply list_fmap_ext. intros _ i _. f_equal; lia. }
    split; [done|]. intros Hlen. rewrite Hobs at 1.
    apply list_fmap_ext. intros j i Hi.
    apply lookup_seq in Hi as [-> Hi]. apply int_wrap_small.
    unfold int_min, int_max. lia.
Qed.

Lemma revisions_count_up_witness :
  let ops := [OpSet "/fib" "[0,1]"; OpUpdate "/fib" "[1,1]" 1;
              OpUpdate "/fib" "[1,2]" 1; OpSet "/fib" "[2,3]"] in
  let obs := observed "/fib" ops (NewDatabase 0 0) in
  values (db (NewDatabase 0 0)) !! "/fib" = None ∧
  (OpDelete "/fib" ∉ ops) ∧
  obs = Z.of_nat <$> seq 0 (length obs).
Proof.
  intros ops obs.
  assert (Hk : values (db (NewDatabase 0 0)) !! "/fib" = None)
    by reflexivity.
  assert (Hd : OpDelete "/fib" ∉ ops).
  { intros H. repeat (apply elem_of_cons in H as [H|H]; [discriminate|]).
    by apply elem_of_nil in H. }
  split_and!; [exact Hk | exact Hd |].
  destruct (revisions_count_up "/fib" (NewDatabase 0 0)) as (_ & _ & Hrun).
  destruct (Hrun ops Hk Hd) as [_ Hobs].
  apply Hobs. vm_compute. discriminate.
Defined.

(** C3 as stated fails: for key [/a/b/c] the loop of [notify] does not stop
    after [/a/]; it looks up the root as well, and a handle subscribed at
    the root receives the event. *)
Lemma notify_visits_root :
  (∃ w', notify "/a/b/c" {| value := "1"; revision := 0 |} (NewDatabase 0 0)
         = Ok (["/a/b/c"; "/a/b/"; "/a/"; "/"], w')) ∧
  (¬ ∃ w', notify "/a/b/c" {| value := "1"; revision := 0 |}
             (NewDatabase 0 0)
           = Ok (["/a/b/c"; "/a/b/"; "/a/"], w')) ∧
  match Database_Subscribe "/" (NewDatabase 0 0) with
  | Ok (c, w1) =>
      match Database_Set "/a/b/c" "1" w1 with
      | Ok w2 =>
          queued c w2
          = Some [{| Key := "/a/b/c"; Value := "1"; Revision := 0 |}]
      | _ => False
      end
  | _ => False
  end.
Proof.
  destruct (notify_spec "/a/b/c" {| value := "1"; revision := 0 |}
              (NewDatabase 0 0)) as (h' & Hn & _); [done|].
  change (prefixes "/a/b/c") with ["/a/b/c"; "/a/b/"; "/a/"; "/"] in Hn.
  split_and!.
  - eauto.
  - intros [w' Hw']. rewrite Hn in Hw'. discriminate.
  - vm_compute. reflexivity.
Qed.

(** C3, amended.  [notify] returns for every key the guard accepts.  It
    looks up the full key and then every proper prefix of the key that ends
    with a slash, from the longest to the shortest; the last prefix it looks
    up is the root.  For key [/a/b/c] the prefixes looked up are, in order,
    [/a/b/c], [/a/b/], [/a/] and [/]. *)
Theorem notify_visits_prefixes :
  (∀ e w, ∃ w',
     notify "/a/b/c" e w = Ok (["/a/b/c"; "/a/b/"; "/a/"; "/"], w')) ∧
  (∀ key e w, validate key = Ok () →
     ∃ w', notify key e w = Ok (prefixes key, w') ∧
       (∀ p, p ∈ prefixes key ↔
             p = key ∨
             ∃ i, (i < String.length key - 1)%nat ∧
                  String.get i key = Some "/"%char ∧
                  p = substring 0 (S i) key) ∧
       StronglySorted shorter (prefixes key) ∧
       last (prefixes key) = Some "/").
Proof.
  split.
  - intros e w. destruct (notify_spec "/a/b/c" e w) as (h' & Hn & _); eauto.
  - intros key e w Hv.
    pose proof (validate_nonempty key Hv) as Hne.
    destruct (notify_spec key e w Hne) as (h' & Hn & _).
    exists (with_heap h' w). split; [done|].
    destruct (prefixes_spec key Hne)
      as (tl & _ & -> & Htl & Hall & Hsorted & Hlast).
    split_and!; [|done|by apply Hlast, validate_Ok].
    intros p. rewrite elem_of_cons. split.
    + intros [->|Hp]; [by left|]. right.
      destruct (Htl p Hp) as (Hend & Hpne & Hlen & Heq).
      exists (String.length p - 1)%nat.
      assert (0 < String.length p)%nat by (destruct p; [done | simpl; lia]).
      split_and!; [lia | |].
      * unfold ends_with_slash in Hend. rewrite Heq in Hend at 2.
        by rewrite substring_0_get in Hend by lia.
      * by replace (S (String.length p - 1)) with (String.length p) by lia.
    + intros [->|(i & Hi & Hget & ->)]; [by left|]. right. by apply Hall.
Qed.

Lemma notify_visits_prefixes_witness :
  validate "/s/x" = Ok () ∧
  ∃ w', notify "/s/x" {| value := "1"; revision := 0 |} (NewDatabase 0 0)
        = Ok (prefixes "/s/x", w').
Proof.
  split; [reflexivity|].
  destruct notify_visits_prefixes as [_ H].
  destruct (H "/s/x" {| value := "1"; revision := 0 |} (NewDatabase 0 0))
    as (w' & Hn & _); [reflexivity|].
  exists w'. exact Hn.
Defined.

Section registry.

Lemma registry_ok_new (b e : Z) : registry_ok (NewDatabase b e).
Proof.
  split; simpl.
  - intros p m Hp. by rewrite lookup_empty in Hp.
  - intros c p. rewrite !lookup_empty. simpl. split; [|done].
    by intros (m & Hm & _).
  - intros c s Hc. by rewrite lookup_empty in Hc.
  - intros c s Hc. by rewrite lookup_empty in Hc.
  - intros p [m Hm]. by rewrite lookup_empty in Hm.
Qed.

(** Operations that leave the registry alone and free no channel keep the
    registry in order. *)
Lemma registry_ok_frame (w w' : World) :
  subscriptions (db w') = subscriptions (db w) →
  subscribers (db w') = subscribers (db w) →
  dom (heap w) ⊆ dom (heap w') →
  registry_ok w → registry_ok w'.
Proof.
  intros Hs Hr Hd [H1 H2 H3 H4 H5]. split; rewrite ?Hs, ?Hr; try done.
  intros c s Hc. destruct (H4 c s Hc) as (l & -> & Hl).
  exists l. split; [done|]. set_solver.
Qed.

Lemma offered_dom (u : Update) (seen : gset chan) (h h' : gmap loc channel) :
  (∀ l, h' !! l = offered u seen h l) → dom h' = dom h.
Proof.
  intros Hh. apply set_eq. intros l. rewrite !elem_of_dom, Hh.
  unfold offered. destruct (decide _); [|done].
  by rewrite fmap_is_Some.
Qed.

Lemma registry_ok_stored (key : string) (e : entry) (u : Update)
    (seen : gset chan) (h' : gmap loc channel) (w : World) :
  (∀ l, h' !! l = offered u seen (heap w) l) →
  registry_ok w → registry_ok (stored key e h' w).
Proof.
  intros Hh. destruct (stored_registry key e h' w) as (Hs & Hr & _ & Hheap).
  apply registry_ok_frame; [done | done |].
  rewrite Hheap, (offered_dom u seen (heap w) h' Hh). done.
Qed.

Lemma registry_ok_subscribe (p : string) (w : World) (c : chan) (w' : World) :
  Database_Subscribe p w = Ok (c, w') → registry_ok w → registry_ok w'.
Proof.
  unfold Database_Subscribe, make_chan. intros Hsub [H1 H2 H3 H4 H5].
  destruct (validate p) as [[]| |] eqn:Hv; simpl in Hsub; [|done..].
  destruct (buflen (db w) <? 0); simpl in Hsub; [done|].
  injection Hsub as <- <-.
  set (l := fresh (dom (heap w))).
  assert (Hfresh : l ∉ dom (heap w)) by apply is_fresh.
  assert (Hnew : subscribers (db w) !! Some l = None).
  { destruct (subscribers (db w) !! Some l) as [s|] eqn:Hs; [|done].
    destruct (H4 _ _ Hs) as (l' & [= <-] & Hl). done. }
  assert (Hnotin : ∀ q m, subscriptions (db w) !! q = Some m → Some l ∉ m).
  { intros q m Hq Hin.
    assert (Hp : path <$> subscribers (db w) !! Some l = Some q)
      by (apply H2; eauto).
    by rewrite Hnew in Hp. }
  split; unfold subscribe; simpl.
  - intros q m. destruct (decide (p = q)) as [<-|Hne].
    + rewrite lookup_insert_eq. intros [= <-]. set_solver.
    + rewrite lookup_insert_ne by done. apply H1.
  - intros c q. destruct (decide (Some l = c)) as [<-|Hc].
    + rewrite lookup_insert_eq. simpl. split.
      * intros (m & Hm & Hin). destruct (decide (p = q)) as [<-|Hne]; [done|].
        rewrite lookup_insert_ne in Hm by done.
        by destruct (Hnotin q m Hm).
      * intros [= <-]. rewrite lookup_insert_eq. eexists. split; [done|].
        set_solver.
    + rewrite (lookup_insert_ne (subscribers (db w)) (Some l) c) by done.
      rewrite <- H2.
      destruct (decide (p = q)) as [<-|Hne].
      * rewrite lookup_insert_eq. split.
        -- intros (m & [= <-] & Hin).
           destruct (subscriptions (db w) !! p) as [m0|] eqn:Hm0; simpl in *.
           ++ exists m0. split; [done | set_solver].
           ++ set_solver.
        -- intros (m & Hm & Hin). eexists. split; [done|].
           rewrite Hm. simpl. set_solver.
      * by rewrite lookup_insert_ne by done.
  - intros c s. destruct (decide (Some l = c)) as [<-|Hc].
    + rewrite lookup_insert_eq. by intros [= <-].
    + rewrite lookup_insert_ne by done. apply H3.
  - intros c s. destruct (decide (Some l = c)) as [<-|Hc].
    + intros _. exists l. split; [done|]. set_solver.
    + rewrite lookup_insert_ne by done. intros Hs.
      destruct (H4 c s Hs) as (l' & -> & Hl').
      exists l'. split; [done|]. set_solver.
  - intros q. destruct (decide (p = q)) as [<-|Hne]; [done|].
    rewrite lookup_insert_ne by done. apply H5.
Qed.

(** [Unsubscribe] of a handle that is not registered changes nothing. *)
Lemma unsubscribe_unregistered (c : chan) (w : World) :
  registry_ok w → subscribers (db w) !! c = None → unsubscribe c w = w.
Proof.
  intros [H1 H2 H3 H4 H5] Hc. unfold unsubscribe. rewrite Hc. simpl.
  assert (Hroot : subscriptions (db w) !! "" = None).
  { destruct (subscriptions (db w) !! "") as [m|] eqn:Hm; [|done].
    by specialize (H5 "" (mk_is_Some _ _ Hm)). }
  rewrite Hroot. unfold with_registry.
  rewrite !delete_id by done. by destruct w as [[] ? ?].
Qed.

Lemma registry_ok_unsubscribe (c : chan) (w : World) :
  registry_ok w → registry_ok (unsubscribe c w).
Proof.
  intros Hok.
  destruct (subscribers (db w) !! c) as [s|] eqn:Hc;
    [|by rewrite unsubscribe_unregistered].
  destruct Hok as [H1 H2 H3 H4 H5].
  pose proof (H3 c s Hc) as Hself.
  assert (Hpath : path <$> subscribers (db w) !! c = Some (path s))
    by (by rewrite Hc).
  apply H2 in Hpath as (m & Hm & Hin).
  unfold unsubscribe. rewrite Hc. simpl. rewrite Hm, Hself.
  assert (Hother : ∀ q m', q ≠ path s →
            subscriptions (db w) !! q = Some m' → c ∉ m').
  { intros q m' Hq Hm' Hin'.
    assert (Hp : path <$> subscribers (db w) !! c = Some q)
      by (apply H2; eauto).
    rewrite Hc in Hp. simpl in Hp. congruence. }
  destruct (Nat.eqb_spec (size (m ∖ {[c]})) 0) as [Hsize|Hsize].
  - apply size_empty_inv in Hsize. apply leibniz_equiv in Hsize.
    split; simpl.
    + intros q m'. destruct (decide (path s = q)) as [<-|Hne].
      * by rewrite lookup_delete_eq.
      * rewrite lookup_delete_ne by done. apply H1.
    + intros c' q. destruct (decide (c = c')) as [<-|Hc'].
      * rewrite lookup_delete_eq. simpl. split; [|done].
        intros (m' & Hm' & Hin').
        destruct (decide (path s = q)) as [<-|Hne].
        -- by rewrite lookup_delete_eq in Hm'.
        -- rewrite lookup_delete_ne in Hm' by done.
           by destruct (Hother q m' (not_eq_sym Hne) Hm').
      * rewrite (lookup_delete_ne (subscribers (db w)) c c') by done.
        rewrite <- H2.
        destruct (decide (path s = q)) as [<-|Hne].
        -- rewrite lookup_delete_eq, Hm. split.
           ++ by intros (? & ? & ?).
           ++ intros (m' & [= <-] & Hin'). set_solver.
        -- by rewrite lookup_delete_ne by done.
    + intros c' s'. destruct (decide (c = c')) as [<-|Hc'].
      * by rewrite lookup_delete_eq.
      * rewrite lookup_delete_ne by done. apply H3.
    + intros c' s'. destruct (decide (c = c')) as [<-|Hc'].
      * by rewrite lookup_delete_eq.
      * rewrite lookup_delete_ne by done. apply H4.
    + intros q. destruct (decide (path s = q)) as [<-|Hne].
      * rewrite lookup_delete_eq. by intros [].
      * rewrite lookup_delete_ne by done. apply H5.
  - apply size_non_empty_iff in Hsize.
    split; simpl.
    + intros q m'. destruct (decide (path s = q)) as [<-|Hne].
      * rewrite lookup_insert_eq. intros [= <-] E. apply Hsize. by rewrite E.
      * rewrite lookup_insert_ne by done. apply H1.
    + intros c' q. destruct (decide (c = c')) as [<-|Hc'].
      * rewrite lookup_delete_eq. simpl. split; [|done].
        intros (m' & Hm' & Hin').
        destruct (decide (path s = q)) as [<-|Hne].
        -- rewrite lookup_insert_eq in Hm'. injection Hm' as <-. set_solver.
        -- rewrite lookup_insert_ne in Hm' by done.
           by destruct (Hother q m' (not_eq_sym Hne) Hm').
      * rewrite (lookup_delete_ne (subscribers (db w)) c c') by done.
        rewrite <- H2.
        destruct (decide (path s = q)) as [<-|Hne].
        -- rewrite lookup_insert_eq, Hm. split.
           ++ intros (m' & [= <-] & Hin'). exists m. split; [done|set_solver].
           ++ intros (m' & [= <-] & Hin'). eexists. split; [done|set_solver].
        -- by rewrite lookup_insert_ne by done.
    + intros c' s'. destruct (decide (c = c')) as [<-|Hc'].
      * by rewrite lookup_delete_eq.
      * rewrite lookup_delete_ne by done. apply H3.
    + intros c' s'. destruct (decide (c = c')) as [<-|Hc'].
      * by rewrite lookup_delete_eq.
      * rewrite lookup_delete_ne by done. apply H4.
    + intros q. destruct (decide (path s = q)) as [<-|Hne].
      * intros _. apply H5. by rewrite Hm.
      * rewrite lookup_insert_ne by done. apply H5.
Qed.

End registry.

Section reachability.

Lemma recv_dom (c : chan) (h h' : gmap loc channel) (u : Update) :
  recv c h = Some (u, h') → dom h' = dom h.
Proof.
  unfold recv. destruct c as [l|]; [|done].
  destruct (h !! l) as [x|] eqn:Hl; [|done].
  destruct (buf x) as [|y rest]; [done|]. intros [= _ <-].
  rewrite dom_insert_L. apply elem_of_dom_2 in Hl. set_solver.
Qed.

(** Every operation keeps the registry in order. *)
Lemma exec_registry_ok (o : op) (r : response) (w w' : World) :
  exec o w = Ok (r, w') → registry_ok w → registry_ok w'.
Proof.
  intros He Hok. destruct o as [k|k v|k v rev|k|p|c|c]; simpl in He.
  - destruct (Database_Get k w) as [?| |]; simpl in He; [|done..].
    by injection He as <- <-.
  - destruct (Database_Set k v w) as [w1| |] eqn:Hs; simpl in He; [|done..].
    injection He as <- <-.
    destruct (Database_Set_inv k v w w1 Hs) as (_ & h' & -> & Hh).
    by eapply registry_ok_stored.
  - destruct (Database_Update k v rev w) as [[ok w1]| |] eqn:Hu;
      simpl in He; [|done..].
    injection He as <- <-.
    pose proof (Database_Update_inv k v rev w w1 ok Hu) as [_ Hi].
    destruct ok.
    + destruct Hi as (_ & h' & -> & Hh). by eapply registry_ok_stored.
    + by destruct Hi as [_ ->].
  - injection He as <- <-. by apply (registry_ok_frame w).
  - destruct (Database_Subscribe p w) as [[c w1]| |] eqn:Hs; simpl in He;
      [|done..].
    injection He as <- <-. by eapply registry_ok_subscribe.
  - injection He as <- <-. by apply registry_ok_unsubscribe.
  - destruct (recv c (heap w)) as [[u h]|] eqn:Hr; injection He as <- <-;
      [|done].
    apply (registry_ok_frame w); [done | done | | done].
    simpl. by rewrite (recv_dom c (heap w) h u Hr).
Qed.

Lemma reachable_registry_ok (w : World) : reachable w → registry_ok w.
Proof.
  induction 1 as [b e|w o r w' _ IH He]; [apply registry_ok_new|].
  by eapply exec_registry_ok.
Qed.

Lemma unsubscribe_gone (c : chan) (w : World) :
  subscribers (db (unsubscribe c w)) !! c = None.
Proof.
  unfold unsubscribe.
  destruct (subscriptions (db w) !! _) as [m|];
    [destruct (size _ =? 0)%nat|]; simpl; apply lookup_delete_eq.
Qed.

End reachability.

(** C9.  In every world the program can reach from a new database, the two
    indexes of the registry agree: a handle is a member of
    [subscriptions[p]] exactly when [subscribers] maps it to path [p], hence
    for at most one path; and no path is mapped to an empty set of
    handles. *)
Theorem registry_indexes_agree (w : World) :
  reachable w →
  (∀ c p, (∃ m, subscriptions (db w) !! p = Some m ∧ c ∈ m) ↔
          path <$> subscribers (db w) !! c = Some p) ∧
  (∀ c p q m1 m2,
     subscriptions (db w) !! p = Some m1 → c ∈ m1 →
     subscriptions (db w) !! q = Some m2 → c ∈ m2 → p = q) ∧
  (∀ p m, subscriptions (db w) !! p = Some m → m ≠ ∅).
Proof.
  intros Hr. destruct (reachable_registry_ok w Hr) as [H1 H2 H3 H4 H5].
  split_and!; [done | | done].
  intros c p q m1 m2 Hp Hc1 Hq Hc2.
  assert (Hpp : path <$> subscribers (db w) !! c = Some p)
    by (apply H2; eauto).
  assert (Hqq : path <$> subscribers (db w) !! c = Some q)
    by (apply H2; eauto).
  congruence.
Qed.

(** C10.  [Unsubscribe] with a handle that is not registered (never
    subscribed, or unsubscribed before) returns and leaves the whole world,
    store and registry included, as it was. *)
Theorem unsubscribe_unknown_handle (c : chan) (w : World) :
  reachable w →
  (subscribers (db w) !! c = None →
   exec (OpUnsubscribe c) w = Ok (RDone, w) ∧ Database_Unsubscribe c w = w) ∧
  Database_Unsubscribe c (Database_Unsubscribe c w)
  = Database_Unsubscribe c w.
Proof.
  intros Hr. pose proof (reachable_registry_ok w Hr) as Hok.
  split.
  - intros Hc. simpl. unfold Database_Unsubscribe.
    by rewrite unsubscribe_unregistered.
  - unfold Database_Unsubscribe.
    apply unsubscribe_unregistered;
      [by apply registry_ok_unsubscribe | apply unsubscribe_gone].
Qed.

Lemma run_reachable (ops : list op) (w : World) :
  reachable w → reachable (run ops w).
Proof.
  revert w. induction ops as [|o ops IH]; intros w Hw; [done|].
  simpl. apply IH. destruct (exec o w) as [[r w']| |] eqn:He; [|done..].
  by eapply reachable_step.
Qed.

Lemma registry_indexes_agree_witness :
  let w := run [OpSubscribe "/a/"; OpSubscribe "/a/"; OpSet "/a/b" "1";
                OpSubscribe "/a/b"; OpUnsubscribe (Some 2%positive)]
             (NewDatabase 0 0) in
  reachable w ∧
  ∀ p m, subscriptions (db w) !! p = Some m → m ≠ ∅.
Proof.
  intros w.
  assert (Hr : reachable w) by apply run_reachable, reachable_new.
  split; [exact Hr|].
  destruct (registry_indexes_agree w Hr) as (_ & _ & H). exact H.
Defined.

Lemma unsubscribe_unknown_handle_witness :
  let w := run [OpSubscribe "/a/"; OpSet "/a/b" "1";
                OpUnsubscribe (Some 1%positive)] (NewDatabase 0 0) in
  reachable w ∧
  subscribers (db w) !! Some 1%positive = None ∧
  Database_Unsubscribe (Some 1%positive) w = w.
Proof.
  intros w.
  assert (Hr : reachable w) by apply run_reachable, reachable_new.
  assert (Hc : subscribers (db w) !! Some 1%positive = None)
    by (vm_compute; reflexivity).
  split_and!; [exact Hr | exact Hc |].
  destruct (unsubscribe_unknown_handle (Some 1%positive) w Hr) as [H _].
  exact (proj2 (H Hc)).
Defined.

(** C7.  [Delete] always returns.  It removes the entry of the key if there
    is one and changes nothing otherwise; the entries of all other keys,
    the registry, the queue of every handle and the [expire] goroutines
    stay as they were: no event is delivered. *)
Theorem delete_is_silent (key : string) (w : World) :
  exec (OpDelete key) w = Ok (RDone, Database_Delete key w) ∧
  values (db (Database_Delete key w)) !! key = None ∧
  (∀ k, k ≠ key →
        values (db (Database_Delete key w)) !! k = values (db w) !! k) ∧
  (values (db w) !! key = None → Database_Delete key w = w) ∧
  subscriptions (db (Database_Delete key w)) = subscriptions (db w) ∧
  subscribers (db (Database_Delete key w)) = subscribers (db w) ∧
  heap (Database_Delete key w) = heap w ∧
  expiring (Database_Delete key w) = expiring w.
Proof.
  unfold Database_Delete. simpl. split_and!; try done.
  - apply lookup_delete_eq.
  - intros k Hk. by apply lookup_delete_ne.
  - intros Hk. unfold with_values. rewrite delete_id by done.
    by destruct w as [[] ? ?].
Qed.

Lemma delete_is_silent_witness :
  let w := run [OpSubscribe "/fib"; OpSet "/fib" "[0,1]"; OpSet "/x" "1"]
             (NewDatabase 0 0) in
  "/x" ≠ "/fib" ∧
  values (db (Database_Delete "/fib" w)) !! "/x" = values (db w) !! "/x" ∧
  queued (Some 1%positive) (Database_Delete "/fib" w)
  = queued (Some 1%positive) w.
Proof.
  intros w.
  destruct (delete_is_silent "/fib" w) as (_ & _ & Hother & _ & _ & _ & Hh & _).
  split_and!; [done | by apply Hother |].
  unfold queued. by rewrite Hh.
Defined.

(** C8.  [validate] panics iff the key is empty or does not start with a
    slash, and then [Get], [Set], [Update] and [Subscribe] panic with it.
    On every other string, whatever follows the first slash, [Get], [Set]
    and [Update] return their normal response, and so does [Subscribe] in a
    database whose buffer length is not negative. *)
Theorem validate_guard (key : string) (w : World) :
  (validate key = Panic "invalid key" ↔
   key = "" ∨ String.get 0 key ≠ Some "/"%char) ∧
  (validate key = Ok () ↔ validate key ≠ Panic "invalid key") ∧
  (validate key = Panic "invalid key" →
   Database_Get key w = Panic "invalid key" ∧
   (∀ val, Database_Set key val w = Panic "invalid key") ∧
   (∀ val rev, Database_Update key val rev w = Panic "invalid key") ∧
   Database_Subscribe key w = Panic "invalid key") ∧
  (validate key = Ok () →
   (∃ val rev ok, Database_Get key w = Ok (val, rev, ok)) ∧
   (∀ val, ∃ w', Database_Set key val w = Ok w') ∧
   (∀ val rev, ∃ ok w', Database_Update key val rev w = Ok (ok, w')) ∧
   (0 ≤ buflen (db w) → ∃ c w', Database_Subscribe key w = Ok (c, w'))).
Proof.
  split_and!.
  - apply validate_Panic.
  - destruct key as [|a key]; simpl; [split; done|].
    destruct a as [[] [] [] [] [] [] [] []]; split; done.
  - intros Hv. unfold Database_Get, Database_Set, Database_Update,
      Database_Subscribe. by rewrite Hv.
  - intros Hv. split_and!.
    + unfold Database_Get. rewrite Hv. simpl.
      destruct (get key w) as [e ok]. eauto.
    + intros val. destruct (Database_Set_spec key val w Hv) as (h' & Hs & _).
      eauto.
    + intros val rev.
      pose proof (Database_Update_spec key val rev w Hv) as Hu.
      destruct (int_add (current key w) 1 =? rev);
        [destruct Hu as (h' & Hu & _)|]; eauto.
    + intros Hb. unfold Database_Subscribe, make_chan. rewrite Hv. simpl.
      destruct (Z.ltb_spec (buflen (db w)) 0); [lia|]. simpl. eauto.
Qed.

Lemma validate_guard_witness :
  validate "/a//b/" = Ok () ∧
  0 ≤ buflen (db (NewDatabase 0 0)) ∧
  (∃ w', Database_Set "/a//b/" "1" (NewDatabase 0 0) = Ok w') ∧
  (∃ c w', Database_Subscribe "/a//b/" (NewDatabase 0 0) = Ok (c, w')) ∧
  validate "a/b" = Panic "invalid key" ∧
  Database_Get "a/b" (NewDatabase 0 0) = Panic "invalid key".
Proof.
  destruct (validate_guard "/a//b/" (NewDatabase 0 0)) as (_ & _ & _ & Hok).
  destruct (Hok eq_refl) as (_ & Hset & _ & Hsub).
  destruct (validate_guard "a/b" (NewDatabase 0 0)) as (_ & _ & Hbad & _).
  destruct (Hbad eq_refl) as (Hget & _).
  assert (Hb : 0 ≤ buflen (db (NewDatabase 0 0)))
    by (vm_compute; discriminate).
  split; [reflexivity|]. split; [exact Hb|].
  split; [exact (Hset "1")|]. split; [exact (Hsub Hb)|].
  split; [reflexivity | exact Hget].
Defined.

Section fanout.

Lemma listeners_elem (d : Database) (ps : list string) (c : chan) :
  c ∈ listeners d ps ↔
  ∃ p m, p ∈ ps ∧ subscriptions d !! p = Some m ∧ c ∈ m.
Proof.
  unfold listeners. rewrite elem_of_union_list. split.
  - intros (X & HX & Hc). apply list_elem_of_fmap in HX as (p & -> & Hp).
    destruct (subscriptions d !! p) as [m|] eqn:Hm; simpl in Hc;
      [|set_solver].
    by exists p, m.
  - intros (p & m & Hp & Hm & Hc). exists m. split; [|done].
    apply list_elem_of_fmap. exists p. by rewrite Hm.
Qed.

(** In a registry in order, the handles [notify] reaches are those whose
    own path is one of the prefixes. *)
Lemma listeners_registered (w : World) (ps : list string) (c : chan) :
  registry_ok w →
  c ∈ listeners (db w) ps ↔
  ∃ p, path <$> subscribers (db w) !! c = Some p ∧ p ∈ ps.
Proof.
  intros [_ H2 _ _ _]. rewrite listeners_elem. split.
  - intros (p & m & Hp & Hm & Hc). exists p. split; [|done].
    apply H2. eauto.
  - intros (p & Hc & Hp). apply H2 in Hc as (m & Hm & Hc). by exists p, m.
Qed.

(** A successful mutation of [key] leaves the registry alone and offers
    the event of the stored entry, once, to every handle registered at a
    prefix [notify] visits. *)
Lemma exec_delivery (key : string) (o : op) (r : response) (w w' : World) :
  exec o w = Ok (r, w') → mutation_of key o r = true →
  validate key = Ok () ∧
  subscriptions (db w') = subscriptions (db w) ∧
  subscribers (db w') = subscribers (db w) ∧
  ∀ l, heap w' !! l
       = offered (event key w') (listeners (db w) (prefixes key)) (heap w) l.
Proof.
  intros He Hm.
  destruct (exec_mutation key o r w w' He Hm) as (Hv & v & h' & -> & Hh).
  destruct (stored_registry key {| value := v;
              revision := int_add (current key w) 1 |} h' w)
    as (Hs & Hr & _ & Hheap).
  split_and!; [done..|].
  intros l. rewrite Hheap, Hh. f_equal.
  unfold event, get. by rewrite stored_values, lookup_insert_eq.
Qed.

Lemma offered_in (u : Update) (seen : gset chan) (h : gmap loc channel)
    (l : loc) (c : channel) :
  Some l ∈ seen → h !! l = Some c → offered u seen h l = Some (try_send c u).
Proof.
  intros Hin Hl. unfold offered. rewrite decide_True by done.
  by rewrite Hl.
Qed.

Lemma offered_out (u : Update) (seen : gset chan) (h : gmap loc channel)
    (l : loc) :
  Some l ∉ seen → offered u seen h l = h !! l.
Proof. intros Hin. unfold offered. by rewrite decide_False by done. Qed.

Lemma try_send_room (c : channel) (u : Update) :
  (length (buf c) < cap c)%nat →
  try_send c u = {| cap := cap c; buf := buf c ++ [u] |}.
Proof.
  intros Hc. unfold try_send.
  by destruct (Nat.ltb_spec (length (buf c)) (cap c)); [|lia].
Qed.

Lemma try_send_full (c : channel) (u : Update) :
  (cap c ≤ length (buf c))%nat → try_send c u = c.
Proof.
  intros Hc. unfold try_send.
  by destruct (Nat.ltb_spec (length (buf c)) (cap c)); [lia|].
Qed.

(** An exact path (no slash at its end) is only visited for itself. *)
Lemma exact_path_only (p key : string) :
  key ≠ "" → ¬ ends_with_slash p → p ∈ prefixes key → p = key.
Proof.
  intros Hne Hend Hin.
  destruct (prefixes_spec key Hne) as (tl & _ & Hp & Htl & _).
  rewrite Hp in Hin. apply elem_of_cons in Hin as [->|Hin]; [done|].
  by destruct (Htl p Hin) as (? & _).
Qed.

End fanout.

(** C4.  Take a handle registered at a path in a reachable world, with
    room in its queue.  A successful mutation ([Set] or successful
    [Update]) of a key queues one event, that of the stored entry, when the
    path is one of the prefixes [notify] visits for the key, and nothing
    otherwise.  So a handle at [/a/] gets one event for each mutation of
    [/a/b], [/a/c] and [/a/b/c] and none for [/x]; a handle at the exact
    key [/a/b] gets one event for a mutation of [/a/b] and none for any
    other key, [/a/b/c] included. *)
Theorem hierarchical_delivery (w : World) (l : loc) (s : subscriber)
    (c : channel) :
  reachable w →
  subscribers (db w) !! Some l = Some s →
  heap w !! l = Some c →
  (length (buf c) < cap c)%nat →
  ∀ key o r w', exec o w = Ok (r, w') → mutation_of key o r = true →
    let delivered :=
      heap w' !! l
      = Some {| cap := cap c; buf := buf c ++ [event key w'] |} in
    let silent := heap w' !! l = Some c in
    (path s ∈ prefixes key → delivered) ∧
    (path s ∉ prefixes key → silent) ∧
    (path s = "/a/" →
       (key ∈ ["/a/b"; "/a/c"; "/a/b/c"] → delivered) ∧
       (key = "/x" → silent)) ∧
    (path s = "/a/b" →
       (key = "/a/b" → delivered) ∧
       (key ≠ "/a/b" → silent) ∧ (key = "/a/b/c" → silent)).
Proof.
  intros Hr Hs Hl Hroom key o r w' He Hm delivered silent.
  pose proof (reachable_registry_ok w Hr) as Hok.
  destruct (exec_delivery key o r w w' He Hm) as (Hv & _ & _ & Hh).
  pose proof (validate_nonempty key Hv) as Hne.
  assert (Hreg : Some l ∈ listeners (db w) (prefixes key) ↔
                 path s ∈ prefixes key).
  { rewrite (listeners_registered w _ _ Hok). split.
    - intros (p & Hp & Hin). rewrite Hs in Hp. by injection Hp as <-.
    - intros Hp. exists (path s). by rewrite Hs. }
  assert (Hin : path s ∈ prefixes key → delivered).
  { intros Hp. unfold delivered. rewrite Hh.
    rewrite (offered_in _ _ _ l c) by (by apply Hreg || done).
    by rewrite try_send_room. }
  assert (Hout : path s ∉ prefixes key → silent).
  { intros Hp. unfold silent. rewrite Hh, offered_out; [done|].
    by rewrite Hreg. }
  split_and!; [done | done | |].
  - intros Hpath. rewrite Hpath in Hin, Hout. split.
    + intros Hk. apply Hin.
      repeat (apply elem_of_cons in Hk as [->|Hk];
              [vm_compute; set_solver|]).
      by apply elem_of_nil in Hk.
    + intros ->. apply Hout. vm_compute. set_solver.
  - intros Hpath. rewrite Hpath in Hin, Hout.
    assert (Hother : key ≠ "/a/b" → silent).
    { intros Hk. apply Hout. intros Hp. apply Hk. symmetry.
      by apply (exact_path_only "/a/b" key). }
    split_and!; [|done|].
    + intros ->. apply Hin. vm_compute. set_solver.
    + intros ->. by apply Hother.
Qed.

Lemma hierarchical_delivery_witness :
  let w := run [OpSubscribe "/a/"] (NewDatabase 0 0) in
  let w' := run [OpSet "/a/b/c" "1"] w in
  reachable w ∧
  subscribers (db w) !! Some 1%positive
  = Some {| path := "/a/"; ch := Some 1%positive |} ∧
  heap w !! 1%positive = Some {| cap := 64; buf := [] |} ∧
  heap w' !! 1%positive
  = Some {| cap := 64; buf := [event "/a/b/c" w'] |}.
Proof.
  intros w w'.
  assert (Hr : reachable w) by apply run_reachable, reachable_new.
  assert (Hs : subscribers (db w) !! Some 1%positive
               = Some {| path := "/a/"; ch := Some 1%positive |})
    by (vm_compute; reflexivity).
  assert (Hl : heap w !! 1%positive = Some {| cap := 64; buf := [] |})
    by (vm_compute; reflexivity).
  assert (He : exec (OpSet "/a/b/c" "1") w = Ok (RDone, w'))
    by (vm_compute; reflexivity).
  split_and!; [exact Hr | exact Hs | exact Hl |].
  destruct (hierarchical_delivery w 1%positive _ _ Hr Hs Hl
              ltac:(simpl; lia) "/a/b/c" _ _ _ He eq_refl)
    as (_ & _ & Ha & _).
  apply Ha; [reflexivity|]. set_solver.
Defined.

Section backpressure.

Lemma Database_Set_exec (key val : string) (w w' : World) :
  Database_Set key val w = Ok w' → exec (OpSet key val) w = Ok (RDone, w').
Proof. intros Hs. simpl. by rewrite Hs. Qed.

Lemma mutation_of_set (key val : string) (r : response) :
  mutation_of key (OpSet key val) r = true.
Proof. simpl. by apply bool_decide_eq_true. Qed.

Lemma channel_eta (c : channel) : {| cap := cap c; buf := buf c ++ [] |} = c.
Proof. destruct c. simpl. by rewrite app_nil_r. Qed.

(** The queue of a handle registered at [p] along a run of [Set] calls on
    keys for which [notify] visits [p]: the events are queued in order
    while there is room. *)
Lemma set_all_queue (kvs : list (string * string)) (w : World) (l : loc)
    (c0 : channel) (p : string) (m : gset chan) :
  subscriptions (db w) !! p = Some m → Some l ∈ m →
  heap w !! l = Some c0 →
  Forall (λ kv, validate kv.1 = Ok () ∧ p ∈ prefixes kv.1) kvs →
  ∃ evs w2, set_all kvs w = Ok (evs, w2) ∧
    length evs = length kvs ∧
    heap w2 !! l
    = Some {| cap := cap c0;
              buf := buf c0
                     ++ take (cap c0 - length (buf c0)) evs |}.
Proof.
  revert w c0. induction kvs as [|[key val] kvs IH]; intros w c0 Hp Hl Hc Hall.
  { exists [], w. simpl. rewrite take_nil, channel_eta. done. }
  apply Forall_cons in Hall as [[Hv Hin] Hall]. simpl in Hv, Hin.
  destruct (Database_Set_spec key val w Hv) as (h' & Hs & _).
  set (w' := stored key _ h' w) in Hs.
  destruct (exec_delivery key (OpSet key val) RDone w w'
              (Database_Set_exec _ _ _ _ Hs) (mutation_of_set _ _ _))
    as (_ & Hsubs & _ & Hh).
  assert (Hc' : heap w' !! l = Some (try_send c0 (event key w'))).
  { rewrite Hh. apply offered_in; [|done].
    apply listeners_elem. by exists p, m. }
  destruct (IH w' (try_send c0 (event key w')))
    as (evs & w2 & Hrun & Hlen & Hq); [by rewrite Hsubs | done..|].
  exists (event key w' :: evs), w2. simpl. rewrite Hs. simpl.
  rewrite Hrun. simpl. split_and!; [done | by rewrite Hlen |].
  rewrite Hq. f_equal.
  destruct (decide (length (buf c0) < cap c0)%nat) as [Hroom|Hfull].
  - rewrite try_send_room by done. simpl. f_equal.
    rewrite length_app. simpl.
    replace (cap c0 - length (buf c0))%nat
      with (S (cap c0 - (length (buf c0) + 1)))%nat by lia.
    simpl. by rewrite <- app_assoc.
  - rewrite try_send_full by lia. f_equal.
    replace (cap c0 - length (buf c0))%nat with 0%nat by lia. done.
Qed.

End backpressure.

(** C5.  One call of [notify] offers its event at most once to every
    handle: the queue of a handle registered at one of the visited
    prefixes gets the event once if it has room, every other queue stays as
    it was.  In particular a handle registered at both [/a/] and [/a/b/]
    gets exactly one event for a mutation of [/a/b/c]. *)
Theorem notify_once_per_handle :
  (∀ key e w, key ≠ "" →
     let u := {| Key := key; Value := value e; Revision := revision e |} in
     ∃ w', notify key e w = Ok (prefixes key, w') ∧
       ∀ l c, heap w !! l = Some c →
         heap w' !! l
         = Some (if decide (Some l ∈ listeners (db w) (prefixes key))
                 then try_send c u else c) ∧
         (heap w' !! l = Some c ∨
          heap w' !! l = Some {| cap := cap c; buf := buf c ++ [u] |})) ∧
  (∀ w l c, heap w !! l = Some c → (length (buf c) < cap c)%nat →
     let w1 := subscribe "/a/b/" (Some l) (subscribe "/a/" (Some l) w) in
     (∃ m1 m2, subscriptions (db w1) !! "/a/" = Some m1 ∧ Some l ∈ m1 ∧
               subscriptions (db w1) !! "/a/b/" = Some m2 ∧ Some l ∈ m2) ∧
     ∀ o r w', exec o w1 = Ok (r, w') → mutation_of "/a/b/c" o r = true →
       heap w' !! l
       = Some {| cap := cap c; buf := buf c ++ [event "/a/b/c" w'] |}).
Proof.
  split.
  - intros key e w Hne u.
    destruct (notify_spec key e w Hne) as (h' & Hn & Hh).
    exists (with_heap h' w). split; [done|]. intros l c Hl. simpl.
    rewrite Hh. unfold offered. fold u. rewrite Hl.
    destruct (decide (Some l ∈ listeners (db w) (prefixes key))); simpl.
    + split; [done|].
      destruct (decide (length (buf c) < cap c)%nat).
      * right. by rewrite try_send_room.
      * left. by rewrite try_send_full by lia.
    + split; [done | by left].
  - intros w l c Hl Hroom w1.
    assert (Hb : ∃ m2, subscriptions (db w1) !! "/a/b/" = Some m2 ∧
                       Some l ∈ m2).
    { unfold w1, subscribe. simpl. rewrite lookup_insert_eq.
      eexists. split; [done | set_solver]. }
    assert (Ha : ∃ m1, subscriptions (db w1) !! "/a/" = Some m1 ∧
                       Some l ∈ m1).
    { unfold w1, subscribe. simpl.
      rewrite (lookup_insert_ne _ "/a/b/" "/a/") by done.
      rewrite lookup_insert_eq. eexists. split; [done | set_solver]. }
    destruct Ha as (m1 & Hm1 & Hin1), Hb as (m2 & Hm2 & Hin2).
    split; [by exists m1, m2|].
    intros o r w' He Hm.
    destruct (exec_delivery "/a/b/c" o r w1 w' He Hm) as (_ & _ & _ & Hh).
    rewrite Hh. rewrite (offered_in _ _ _ l c).
    + by rewrite try_send_room.
    + apply listeners_elem. exists "/a/", m1.
      split_and!; [vm_compute; set_solver | done | done].
    + done.
Qed.

Lemma notify_once_per_handle_witness :
  let w := run [OpSubscribe "/x"] (NewDatabase 0 0) in
  let w1 := subscribe "/a/b/" (Some 1%positive)
              (subscribe "/a/" (Some 1%positive) w) in
  let w' := run [OpSet "/a/b/c" "1"] w1 in
  heap w !! 1%positive = Some {| cap := 64; buf := [] |} ∧
  heap w' !! 1%positive
  = Some {| cap := 64; buf := [event "/a/b/c" w'] |}.
Proof.
  intros w w1 w'.
  assert (Hl : heap w !! 1%positive = Some {| cap := 64; buf := [] |})
    by (vm_compute; reflexivity).
  assert (He : exec (OpSet "/a/b/c" "1") w1 = Ok (RDone, w'))
    by (vm_compute; reflexivity).
  split; [exact Hl|].
  destruct notify_once_per_handle as [_ H].
  destruct (H w 1%positive _ Hl ltac:(simpl; lia)) as [_ Hone].
  exact (Hone _ _ _ He eq_refl).
Defined.

(** C6.  A mutation never waits for a subscriber: [Set] and [Update] return
    on every key the guard accepts, whatever the queues hold.  When the
    queue of a matching handle is full the event is dropped for that handle
    and still queued for every other matching handle with room.  And a
    handle fresh from [Subscribe], of capacity [C], that is sent events
    while nothing is consumed holds the first [C] of them: of [C + 1]
    events exactly the last one is dropped. *)
Theorem delivery_never_blocks :
  (∀ key val rev w, validate key = Ok () →
     (∃ w', Database_Set key val w = Ok w') ∧
     (∃ ok w', Database_Update key val rev w = Ok (ok, w'))) ∧
  (∀ key o r w w' la ca lb cb,
     exec o w = Ok (r, w') → mutation_of key o r = true →
     heap w !! la = Some ca → heap w !! lb = Some cb →
     Some la ∈ listeners (db w) (prefixes key) →
     Some lb ∈ listeners (db w) (prefixes key) →
     (cap ca ≤ length (buf ca))%nat → (length (buf cb) < cap cb)%nat →
     heap w' !! la = Some ca ∧
     heap w' !! lb
     = Some {| cap := cap cb; buf := buf cb ++ [event key w'] |}) ∧
  (∀ p w c w1 kvs,
     0 < buflen (db w) → Database_Subscribe p w = Ok (c, w1) →
     Forall (λ kv, validate kv.1 = Ok () ∧ p ∈ prefixes kv.1) kvs →
     let C := Z.to_nat (buflen (db w)) in
     ∃ evs w2, set_all kvs w1 = Ok (evs, w2) ∧
       length evs = length kvs ∧
       queued c w2 = Some (take C evs) ∧
       (length kvs = S C →
        length (take C evs) = C ∧ ∃ u, evs = take C evs ++ [u])).
Proof.
  split_and!.
  - intros key val rev w Hv. split.
    + destruct (Database_Set_spec key val w Hv) as (h' & Hs & _). eauto.
    + pose proof (Database_Update_spec key val rev w Hv) as Hu.
      destruct (int_add (current key w) 1 =? rev);
        [destruct Hu as (h' & Hu & _)|]; eauto.
  - intros key o r w w' la ca lb cb He Hm Hla Hlb Hina Hinb Hfull Hroom.
    destruct (exec_delivery key o r w w' He Hm) as (_ & _ & _ & Hh).
    rewrite !Hh.
    rewrite (offered_in _ _ _ la ca), (offered_in _ _ _ lb cb) by done.
    by rewrite try_send_full, try_send_room.
  - intros p w c w1 kvs Hb Hsub Hall C.
    unfold Database_Subscribe, make_chan in Hsub.
    destruct (validate p) as [[]| |]; simpl in Hsub; [|done..].
    destruct (Z.ltb_spec (buflen (db w)) 0); [lia|]. simpl in Hsub.
    injection Hsub as <- <-.
    set (l := fresh (dom (heap w))).
    match goal with
    | |- context [set_all kvs ?w1] =>
        edestruct (set_all_queue kvs w1 l {| cap := C; buf := [] |} p)
          as (evs & w2 & Hrun & Hlen & Hq)
    end; [| |by apply lookup_insert_eq|done|].
    { unfold subscribe. simpl. apply lookup_insert_eq. }
    { set_solver. }
    exists evs, w2. split_and!; [done | done | |].
    + unfold queued. simpl. rewrite Hq. simpl. by rewrite Nat.sub_0_r.
    + intros Hk. rewrite length_take, Hlen, Hk. split; [lia|].
      exists (default {| Key := ""; Value := ""; Revision := 0 |}
                (last evs)).
      rewrite <- (take_drop C evs) at 1. f_equal.
      assert (Hd : length (drop C evs) = 1%nat)
        by (rewrite length_drop; lia).
      rewrite <- (take_drop C evs) at 2.
      destruct (drop C evs) as [|u [|??]]; simpl in Hd; try lia.
      by rewrite last_snoc.
Qed.

Lemma delivery_never_blocks_witness :
  let w := NewDatabase 2 0 in
  let w1 := run [OpSubscribe "/s/"] w in
  let kvs := [("/s/x", "1"); ("/s/y", "2"); ("/s/x", "3")] in
  0 < buflen (db w) ∧
  Database_Subscribe "/s/" w = Ok (Some 1%positive, w1) ∧
  Forall (λ kv, validate kv.1 = Ok () ∧ "/s/" ∈ prefixes kv.1) kvs ∧
  ∃ evs w2, set_all kvs w1 = Ok (evs, w2) ∧
    queued (Some 1%positive) w2 = Some (take 2 evs) ∧
    length (take 2 evs) = 2%nat.
Proof.
  intros w w1 kvs.
  assert (Hb : 0 < buflen (db w)) by (vm_compute; reflexivity).
  assert (Hsub : Database_Subscribe "/s/" w = Ok (Some 1%positive, w1))
    by (vm_compute; reflexivity).
  assert (Hall : Forall (λ kv, validate kv.1 = Ok () ∧
                               "/s/" ∈ prefixes kv.1) kvs).
  { repeat (apply Forall_cons; split;
            [split; [reflexivity | vm_compute; set_solver]|]).
    apply Forall_nil. done. }
  split_and!; [exact Hb | exact Hsub | exact Hall |].
  destruct delivery_never_blocks as (_ & _ & H).
  destruct (H "/s/" w _ w1 kvs Hb Hsub Hall)
    as (evs & w2 & Hrun & _ & Hq & Hlast).
  exists evs, w2.
  split_and!; [exact Hrun | exact Hq | exact (proj1 (Hlast eq_refl))].
Defined.

(** * Further properties of the engine *)

Section steps.

Lemma recv_cases (c : chan) (h h' : gmap loc channel) (u : Update) :
  recv c h = Some (u, h') →
  ∃ l x rest, c = Some l ∧ h !! l = Some x ∧ buf x = u :: rest ∧
    h' = <[l := {| cap := cap x; buf := rest |}]> h.
Proof.
  unfold recv. destruct c as [l|]; [|done].
  destruct (h !! l) as [x|] eqn:Hl; [|done].
  destruct (buf x) as [|y rest] eqn:Hb; [done|]. intros [= <- <-].
  by exists l, x, rest.
Qed.

Lemma Database_Subscribe_inv (p : string) (w w' : World) (c : chan) :
  Database_Subscribe p w = Ok (c, w') →
  validate p = Ok () ∧ 0 ≤ buflen (db w) ∧
  c = Some (fresh (dom (heap w))) ∧
  heap w !! fresh (dom (heap w)) = None ∧
  w' = subscribe p (Some (fresh (dom (heap w))))
         (with_heap
            (<[fresh (dom (heap w))
               := {| cap := Z.to_nat (buflen (db w)); buf := [] |}]>
               (heap w)) w).
Proof.
  unfold Database_Subscribe, make_chan. intros Hsub.
  destruct (validate p) as [[]| |]; simpl in Hsub; [|done..].
  destruct (Z.ltb_spec (buflen (db w)) 0); simpl in Hsub; [done|].
  injection Hsub as <- <-.
  split_and!; [done | lia | done | | done].
  apply not_elem_of_dom, is_fresh.
Qed.

(** No operation changes the configured buffer length. *)
Lemma exec_buflen (o : op) (r : response) (w w' : World) :
  exec o w = Ok (r, w') → buflen (db w') = buflen (db w).
Proof.
  intros He. destruct o as [k|k v|k v rev|k|p|c|c]; simpl in He.
  - destruct (Database_Get k w) as [?| |]; simpl in He; [|done..].
    by injection He as <- <-.
  - destruct (Database_Set k v w) as [w1| |] eqn:Hs; simpl in He; [|done..].
    injection He as <- <-.
    destruct (Database_Set_inv k v w w1 Hs) as (_ & h' & -> & _).
    by destruct (stored_registry k {| value := v;
                   revision := int_add (current k w) 1 |} h' w)
      as (_ & _ & -> & _).
  - destruct (Database_Update k v rev w) as [[ok w1]| |] eqn:Hu;
      simpl in He; [|done..].
    injection He as <- <-.
    pose proof (Database_Update_inv k v rev w w1 ok Hu) as [_ Hi].
    destruct ok.
    + destruct Hi as (_ & h' & -> & _).
      by destruct (stored_registry k {| value := v; revision := rev |} h' w)
        as (_ & _ & -> & _).
    + by destruct Hi as [_ ->].
  - by injection He as <- <-.
  - destruct (Database_Subscribe p w) as [[c w1]| |] eqn:Hs; simpl in He;
      [|done..].
    injection He as <- <-.
    by destruct (Database_Subscribe_inv p w w1 c Hs) as (_ & _ & _ & _ & ->).
  - injection He as <- <-. unfold Database_Unsubscribe.
    by destruct (unsubscribe_frame c w) as (_ & _ & -> & _).
  - destruct (recv c (heap w)) as [[u h]|]; by injection He as <- <-.
Qed.

(** What one operation does to the channel at [l]: nothing; or a mutation
    of a key offers its event to [l], registered at a prefix of the key;
    or the owner takes the oldest element; or [Subscribe] makes [l]. *)
Lemma exec_heap_cases (o : op) (r : response) (w w' : World) (l : loc) :
  registry_ok w → exec o w = Ok (r, w') →
  heap w' !! l = heap w !! l ∨
  (∃ key c s, mutation_of key o r = true ∧ validate key = Ok () ∧
     heap w !! l = Some c ∧ subscribers (db w) !! Some l = Some s ∧
     path s ∈ prefixes key ∧
     heap w' !! l = Some (try_send c (event key w'))) ∨
  (∃ c u rest, o = OpRecv (Some l) ∧ r = RRecv u ∧
     heap w !! l = Some c ∧ buf c = u :: rest ∧
     heap w' !! l = Some {| cap := cap c; buf := rest |}) ∨
  (∃ p, o = OpSubscribe p ∧ r = RSubscribe (Some l) ∧ 0 ≤ buflen (db w) ∧
     heap w !! l = None ∧ subscribers (db w) !! Some l = None ∧
     heap w' !! l
     = Some {| cap := Z.to_nat (buflen (db w)); buf := [] |}).
Proof.
  intros Hok He.
  assert (Hmut : ∀ key, mutation_of key o r = true →
    heap w' !! l = heap w !! l ∨
    (∃ key c s, mutation_of key o r = true ∧ validate key = Ok () ∧
       heap w !! l = Some c ∧ subscribers (db w) !! Some l = Some s ∧
       path s ∈ prefixes key ∧
       heap w' !! l = Some (try_send c (event key w')))).
  { intros key Hm.
    destruct (exec_delivery key o r w w' He Hm) as (Hv & _ & _ & Hh).
    rewrite Hh. unfold offered.
    destruct (decide (Some l ∈ listeners (db w) (prefixes key)))
      as [Hin|Hout]; [|by left].
    destruct (heap w !! l) as [c|] eqn:Hl; [|by left]. right.
    apply (listeners_registered w _ _ Hok) in Hin as (p & Hp & Hin).
    destruct (subscribers (db w) !! Some l) as [s|] eqn:Hs; [|done].
    injection Hp as <-. by exists key, c, s. }
  destruct o as [k|k v|k v rev|k|p|c|c].
  - simpl in He.
    destruct (Database_Get k w) as [?| |]; simpl in He; [|done..].
    injection He as <- <-. by left.
  - destruct (Hmut k (mutation_of_set k v r)) as [?|?]; auto.
  - simpl in He.
    destruct (Database_Update k v rev w) as [[ok w1]| |] eqn:Hu;
      simpl in He; [|done..].
    injection He as <- <-. destruct ok.
    + destruct (Hmut k) as [?|?]; [by apply bool_decide_eq_true|auto..].
    + destruct (Database_Update_inv k v rev w w1 false Hu) as (_ & _ & ->).
      by left.
  - simpl in He. injection He as <- <-. by left.
  - simpl in He.
    destruct (Database_Subscribe p w) as [[c w1]| |] eqn:Hs; simpl in He;
      [|done..].
    injection He as <- <-.
    destruct (Database_Subscribe_inv p w w1 c Hs)
      as (Hv & Hb & -> & Hnew & ->).
    simpl. destruct (decide (l = fresh (dom (heap w)))) as [->|Hne].
    + right. right. right. exists p. rewrite lookup_insert_eq.
      split_and!; try done.
      destruct (subscribers (db w) !! Some (fresh (dom (heap w))))
        as [s|] eqn:Hsub; [|done].
      destruct (registry_alloc w Hok _ _ Hsub) as (l' & [= <-] & Hl').
      by apply not_elem_of_dom in Hnew.
    + left. by rewrite lookup_insert_ne.
  - simpl in He. injection He as <- <-. left.
    unfold Database_Unsubscribe.
    by destruct (unsubscribe_frame c w) as (_ & -> & _).
  - simpl in He. destruct (recv c (heap w)) as [[u h]|] eqn:Hr;
      injection He as <- <-; [|by left].
    destruct (recv_cases c (heap w) h u Hr) as (l' & x & rest & -> & Hx & Hb & ->).
    simpl. destruct (decide (l = l')) as [->|Hne].
    + right. right. left. exists x, u, rest.
      by rewrite lookup_insert_eq.
    + left. by rewrite lookup_insert_ne.
Qed.

(** A registration after an operation was there before it, or is the one
    [Subscribe] just made for a new channel. *)
Lemma exec_subscribers (o : op) (r : response) (w w' : World) (c : chan)
    (s : subscriber) :
  exec o w = Ok (r, w') → subscribers (db w') !! c = Some s →
  subscribers (db w) !! c = Some s ∨
  ∃ p, o = OpSubscribe p ∧ r = RSubscribe c ∧
       s = {| path := p; ch := c |} ∧ c = Some (fresh (dom (heap w))).
Proof.
  intros He Hs. destruct o as [k|k v|k v rev|k|p|c'|c']; simpl in He.
  - destruct (Database_Get k w) as [?| |]; simpl in He; [|done..].
    injection He as <- <-. by left.
  - destruct (Database_Set k v w) as [w1| |] eqn:Hset; simpl in He; [|done..].
    injection He as <- <-.
    destruct (Database_Set_inv k v w w1 Hset) as (_ & h' & -> & _).
    destruct (stored_registry k {| value := v;
                revision := int_add (current k w) 1 |} h' w)
      as (_ & Hr & _). left. by rewrite <- Hr.
  - destruct (Database_Update k v rev w) as [[ok w1]| |] eqn:Hu;
      simpl in He; [|done..].
    injection He as <- <-.
    pose proof (Database_Update_inv k v rev w w1 ok Hu) as [_ Hi].
    destruct ok.
    + destruct Hi as (_ & h' & -> & _).
      destruct (stored_registry k {| value := v; revision := rev |} h' w)
        as (_ & Hr & _). left. by rewrite <- Hr.
    + destruct Hi as [_ ->]. by left.
  - injection He as <- <-. by left.
  - destruct (Database_Subscribe p w) as [[c0 w1]| |] eqn:Hsub; simpl in He;
      [|done..].
    injection He as <- <-.
    destruct (Database_Subscribe_inv p w w1 c0 Hsub)
      as (_ & _ & -> & _ & ->).
    unfold subscribe in Hs. simpl in Hs.
    destruct (decide (Some (fresh (dom (heap w))) = c)) as [<-|Hne].
    + rewrite lookup_insert_eq in Hs. injection Hs as <-.
      right. by exists p.
    + rewrite lookup_insert_ne in Hs by done. by left.
  - injection He as <- <-. left. unfold Database_Unsubscribe in Hs.
    unfold unsubscribe in Hs.
    destruct (subscriptions (db w) !! _) as [m|];
      [destruct (size _ =? 0)%nat|]; simpl in Hs;
      by apply lookup_delete_Some in Hs as [_ ?].
  - destruct (recv c' (heap w)) as [[u h]|]; injection He as <- <-;
      by left.
Qed.

End steps.

Section arithmetic.

Lemma int_wrap_range (z : Z) : int_min ≤ int_wrap z ≤ int_max.
Proof.
  unfold int_wrap, int_min, int_max.
  pose proof (Z.mod_pos_bound (z + 2 ^ 63) (2 ^ 64)). lia.
Qed.

Lemma int_add_range (a b : Z) : int_min ≤ int_add a b ≤ int_max.
Proof. apply int_wrap_range. Qed.

(** The successor of an [int] is never the [int] itself. *)
Lemma int_add_ne (r : Z) : int_min ≤ r ≤ int_max → int_add r 1 ≠ r.
Proof.
  unfold int_add, int_wrap, int_min, int_max. intros Hr.
  destruct (decide (r = 2 ^ 63 - 1)) as [->|Hne].
  - replace (2 ^ 63 - 1 + 1 + 2 ^ 63) with (0 + 1 * 2 ^ 64) by lia.
    rewrite Z.mod_add by lia. rewrite Z.mod_0_l by lia. lia.
  - rewrite Z.mod_small by lia. lia.
Qed.

End arithmetic.

(** X1.  A write is read back: after [Set], and after a successful
    [Update], [Get] of the key returns the value written, the revision
    stored and found = true, and [Get] of every other key returns what it
    returned before. *)
Theorem get_after_write (key val : string) (w : World) :
  (∀ w', Database_Set key val w = Ok w' →
     Database_Get key w' = Ok (val, int_add (current key w) 1, true) ∧
     ∀ k, k ≠ key → Database_Get k w' = Database_Get k w) ∧
  (∀ rev w', Database_Update key val rev w = Ok (true, w') →
     Database_Get key w' = Ok (val, rev, true) ∧
     ∀ k, k ≠ key → Database_Get k w' = Database_Get k w).
Proof.
  assert (Hget : ∀ e h',
    validate key = Ok () →
    Database_Get key (stored key e h' w) = Ok (value e, revision e, true) ∧
    ∀ k, k ≠ key →
         Database_Get k (stored key e h' w) = Database_Get k w).
  { intros e h' Hv. unfold Database_Get, get. split.
    - by rewrite Hv, stored_values, lookup_insert_eq.
    - intros k Hk. by rewrite stored_values, lookup_insert_ne. }
  split.
  - intros w' Hs.
    destruct (Database_Set_inv key val w w' Hs) as (Hv & h' & -> & _).
    by apply Hget.
  - intros rev w' Hu.
    destruct (Database_Update_inv key val rev w w' true Hu)
      as (Hv & _ & h' & -> & _).
    by apply (Hget {| value := val; revision := rev |}).
Qed.

Lemma get_after_write_witness :
  let w := NewDatabase 0 0 in
  let w' := run [OpSet "/fib" "[0,1]"] w in
  Database_Set "/fib" "[0,1]" w = Ok w' ∧
  Database_Get "/fib" w' = Ok ("[0,1]", 0, true).
Proof.
  intros w w'.
  assert (Hs : Database_Set "/fib" "[0,1]" w = Ok w')
    by (vm_compute; reflexivity).
  split; [exact Hs|].
  destruct (get_after_write "/fib" "[0,1]" w) as [H _].
  exact (proj1 (H w' Hs)).
Defined.

(** X2.  Of any number of [Update] calls on one key with the same expected
    revision, served one after the other, only the first can succeed: it
    does iff the revision is the current one plus one, its value is the
    one stored, and all later calls return false. *)
Theorem update_same_revision_once (key : string) (rev : Z) (v : string)
    (vs : list string) (w : World) :
  validate key = Ok () →
  let ops := (λ x, OpUpdate key x rev) <$> (v :: vs) in
  (rev = int_add (current key w) 1 →
   observed key ops w = [rev] ∧
   values (db (run ops w)) !! key
   = Some {| value := v; revision := rev |}) ∧
  (rev ≠ int_add (current key w) 1 →
   observed key ops w = [] ∧ run ops w = w).
Proof.
  intros Hv ops.
  assert (Hfail : ∀ xs w0, rev ≠ int_add (current key w0) 1 →
    observed key ((λ x, OpUpdate key x rev) <$> xs) w0 = [] ∧
    run ((λ x, OpUpdate key x rev) <$> xs) w0 = w0).
  { intros xs w0 Hne. induction xs as [|x xs [IH1 IH2]]; [done|].
    pose proof (Database_Update_spec key x rev w0 Hv) as Hu.
    destruct (Z.eqb_spec (int_add (current key w0) 1) rev); [congruence|].
    unfold run in *. simpl. by rewrite Hu. }
  split; [|apply Hfail].
  intros Heq. unfold ops.
  pose proof (Database_Update_spec key v rev w Hv) as Hu.
  destruct (Z.eqb_spec (int_add (current key w) 1) rev); [|congruence].
  destruct Hu as (h' & Hu & _).
  set (w1 := stored key {| value := v; revision := rev |} h' w) in *.
  assert (Hcur : current key w1 = rev) by apply stored_current.
  destruct (Hfail vs w1) as [H1 H2].
  { rewrite Hcur. intros E. symmetry in E. revert E. apply int_add_ne.
    rewrite Heq. apply int_add_range. }
  unfold run, fmap in *. simpl. rewrite Hu. simpl.
  rewrite bool_decide_eq_true_2 by done.
  rewrite H1, H2, Hcur. split; [done|].
  unfold w1. by rewrite stored_values, lookup_insert_eq.
Qed.

Lemma update_same_revision_once_witness :
  let ops := (λ x, OpUpdate "/fib" x 0) <$> ["a"; "b"; "c"] in
  validate "/fib" = Ok () ∧
  0 = int_add (current "/fib" (NewDatabase 0 0)) 1 ∧
  observed "/fib" ops (NewDatabase 0 0) = [0] ∧
  values (db (run ops (NewDatabase 0 0))) !! "/fib"
  = Some {| value := "a"; revision := 0 |}.
Proof.
  intros ops.
  assert (Hr : 0 = int_add (current "/fib" (NewDatabase 0 0)) 1)
    by reflexivity.
  split; [reflexivity|]. split; [exact Hr|].
  destruct (update_same_revision_once "/fib" 0 "a" ["b"; "c"]
              (NewDatabase 0 0) eq_refl) as [H _].
  exact (H Hr).
Defined.

(** X3.  [Subscribe] followed by [Unsubscribe] of the handle it returned
    puts the registry back as it was: both indexes and the store are those
    from before the [Subscribe] (the path entry made for a first subscriber
    is removed again). *)
Theorem subscribe_then_unsubscribe (p : string) (w w1 : World) (c : chan) :
  reachable w → Database_Subscribe p w = Ok (c, w1) →
  subscriptions (db (Database_Unsubscribe c w1)) = subscriptions (db w) ∧
  subscribers (db (Database_Unsubscribe c w1)) = subscribers (db w) ∧
  values (db (Database_Unsubscribe c w1)) = values (db w).
Proof.
  intros Hr Hsub. pose proof (reachable_registry_ok w Hr) as Hok.
  destruct (Database_Subscribe_inv p w w1 c Hsub) as (_ & _ & -> & Hnew & ->).
  set (l := fresh (dom (heap w))) in *.
  assert (Hnone : subscribers (db w) !! Some l = None).
  { destruct (subscribers (db w) !! Some l) as [s|] eqn:Hs; [|done].
    destruct (registry_alloc w Hok _ _ Hs) as (l' & [= <-] & Hl').
    by apply not_elem_of_dom in Hnew. }
  assert (Hnotin : Some l ∉ default ∅ (subscriptions (db w) !! p)).
  { destruct (subscriptions (db w) !! p) as [m|] eqn:Hm; simpl; [|set_solver].
    intros Hin.
    assert (Hp : path <$> subscribers (db w) !! Some l = Some p)
      by (apply (registry_agree w Hok); eauto).
    by rewrite Hnone in Hp. }
  unfold Database_Unsubscribe, unsubscribe, subscribe. simpl.
  rewrite !lookup_insert_eq. simpl. rewrite ?lookup_insert_eq.
  assert (Hm : ({[Some l]} ∪ default ∅ (subscriptions (db w) !! p))
               ∖ {[Some l]} = default ∅ (subscriptions (db w) !! p))
    by set_solver.
  rewrite Hm.
  destruct (subscriptions (db w) !! p) as [m|] eqn:Hp; simpl in *.
  - pose proof (registry_nonempty w Hok p m Hp) as Hne.
    destruct (Nat.eqb_spec (size m) 0) as [Hsize|Hsize].
    { apply size_empty_inv, leibniz_equiv in Hsize. done. }
    simpl. split_and!; [|by apply delete_insert_id|done].
    rewrite insert_insert_eq. by apply insert_id.
  - rewrite ?size_empty. simpl.
    split_and!; [by apply delete_insert_id..|done].
Qed.

Lemma subscribe_then_unsubscribe_witness :
  let w := run [OpSubscribe "/a/"; OpSet "/a/b" "1"] (NewDatabase 0 0) in
  let w1 := run [OpSubscribe "/a/"] w in
  reachable w ∧
  Database_Subscribe "/a/" w = Ok (Some 2%positive, w1) ∧
  subscriptions (db (Database_Unsubscribe (Some 2%positive) w1))
  = subscriptions (db w).
Proof.
  intros w w1.
  assert (Hr : reachable w) by apply run_reachable, reachable_new.
  assert (Hs : Database_Subscribe "/a/" w = Ok (Some 2%positive, w1))
    by (vm_compute; reflexivity).
  split_and!; [exact Hr | exact Hs |].
  exact (proj1 (subscribe_then_unsubscribe "/a/" w w1 _ Hr Hs)).
Defined.

Section silence.

(** A channel that is not registered stays so, and its queue stays as it
    is, through every operation but a receive on it. *)
Lemma exec_unregistered (o : op) (r : response) (w w' : World) (l : loc) :
  registry_ok w → exec o w = Ok (r, w') → o ≠ OpRecv (Some l) →
  subscribers (db w) !! Some l = None → l ∈ dom (heap w) →
  subscribers (db w') !! Some l = None ∧ l ∈ dom (heap w') ∧
  heap w' !! l = heap w !! l.
Proof.
  intros Hok He Ho Hnone Hl.
  assert (Hsame : heap w' !! l = heap w !! l).
  { destruct (exec_heap_cases o r w w' l Hok He)
      as [?|[(k & c & s & _ & _ & _ & Hs & _)
            |[(c & u & rest & -> & _)|(p & _ & _ & _ & Hn & _)]]];
      [done | congruence | done |].
    by apply not_elem_of_dom in Hn. }
  split_and!; [|by rewrite elem_of_dom, Hsame, <- elem_of_dom|done].
  destruct (subscribers (db w') !! Some l) as [s|] eqn:Hs; [|done].
  destruct (exec_subscribers o r w w' _ s He Hs)
    as [?|(p & _ & _ & _ & [= ->])]; [congruence|].
  by apply is_fresh in Hl.
Qed.

Lemma run_unregistered (ops : list op) (w : World) (l : loc) :
  registry_ok w → OpRecv (Some l) ∉ ops →
  subscribers (db w) !! Some l = None → l ∈ dom (heap w) →
  heap (run ops w) !! l = heap w !! l.
Proof.
  revert w. induction ops as [|o ops IH]; intros w Hok Hops Hnone Hl; [done|].
  apply not_elem_of_cons in Hops as [Ho Hops].
  change (run (o :: ops) w)
    with (run ops (match exec o w with Ok (_, w') => w' | _ => w end)).
  destruct (exec o w) as [[r w']| |] eqn:He; [|by apply IH..].
  destruct (exec_unregistered o r w w' l Hok He) as (Hn' & Hl' & <-);
    [done..|].
  apply IH; [by eapply exec_registry_ok | done..].
Qed.

End silence.

(** X4.  Once a handle is unsubscribed, no later operation queues anything
    in it: along every run that follows, receives on the handle apart, its
    queue stays as [Unsubscribe] found it. *)
Theorem unsubscribed_handle_is_silent (w : World) (l : loc) (ops : list op) :
  reachable w → l ∈ dom (heap w) → OpRecv (Some l) ∉ ops →
  heap (run ops (Database_Unsubscribe (Some l) w)) !! l = heap w !! l.
Proof.
  intros Hr Hl Hops. pose proof (reachable_registry_ok w Hr) as Hok.
  unfold Database_Unsubscribe.
  destruct (unsubscribe_frame (Some l) w) as (_ & Hh & _).
  rewrite <- Hh. apply run_unregistered.
  - by apply registry_ok_unsubscribe.
  - done.
  - apply unsubscribe_gone.
  - by rewrite Hh.
Qed.

Lemma unsubscribed_handle_is_silent_witness :
  let w := run [OpSubscribe "/a/"; OpSet "/a/b" "1"] (NewDatabase 0 0) in
  let ops := [OpSet "/a/b" "2"; OpSubscribe "/a/"; OpUpdate "/a/c" "3" 0] in
  reachable w ∧ 1%positive ∈ dom (heap w) ∧
  (OpRecv (Some 1%positive) ∉ ops) ∧
  heap (run ops (Database_Unsubscribe (Some 1%positive) w)) !! 1%positive
  = heap w !! 1%positive.
Proof.
  intros w ops.
  assert (Hr : reachable w) by apply run_reachable, reachable_new.
  assert (Hl : 1%positive ∈ dom (heap w)).
  { apply elem_of_dom. vm_compute. eauto. }
  assert (Hops : OpRecv (Some 1%positive) ∉ ops).
  { intros H. repeat (apply elem_of_cons in H as [H|H]; [discriminate|]).
    by apply elem_of_nil in H. }
  split_and!; [exact Hr | exact Hl | exact Hops |].
  exact (unsubscribed_handle_is_silent w 1%positive ops Hr Hl Hops).
Defined.

(** X5.  Queues are bounded: in every reachable world the configured
    buffer length is not zero, and every channel made so far has that
    capacity (which then is positive) and never holds more elements than
    it. *)
Theorem queues_are_bounded (w : World) :
  reachable w →
  buflen (db w) ≠ 0 ∧
  ∀ l c, heap w !! l = Some c →
    0 < buflen (db w) ∧ cap c = Z.to_nat (buflen (db w)) ∧
    (length (buf c) ≤ cap c)%nat.
Proof.
  induction 1 as [b e|w o r w' Hr [IH0 IH] He].
  - split.
    + simpl. destruct (Z.eqb_spec b 0); [done|lia].
    + intros l c Hl. simpl in Hl. by rewrite lookup_empty in Hl.
  - pose proof (reachable_registry_ok w Hr) as Hok.
    rewrite (exec_buflen o r w w' He). split; [done|].
    intros l c Hl.
    destruct (exec_heap_cases o r w w' l Hok He)
      as [Hsame|[(k & c0 & s & _ & _ & Hc0 & _ & _ & Hnew)
                |[(c0 & u & rest & _ & _ & Hc0 & Hb & Hnew)
                 |(p & _ & _ & Hpos & _ & _ & Hnew)]]].
    + rewrite Hsame in Hl. by apply (IH l).
    + rewrite Hnew in Hl. injection Hl as <-.
      destruct (IH l c0 Hc0) as (? & ? & ?). unfold try_send.
      destruct (Nat.ltb_spec (length (buf c0)) (cap c0)); simpl;
        [|done]. rewrite length_app. simpl. split_and!; [done..|lia].
    + rewrite Hnew in Hl. injection Hl as <-.
      destruct (IH l c0 Hc0) as (? & ? & Hlen). rewrite Hb in Hlen.
      simpl in *. split_and!; [done..|lia].
    + rewrite Hnew in Hl. injection Hl as <-. simpl.
      split_and!; [lia | done | lia].
Qed.

Lemma queues_are_bounded_witness :
  let w := run [OpSubscribe "/s/"; OpSet "/s/x" "1"; OpSet "/s/x" "2";
                OpSet "/s/y" "3"] (NewDatabase 2 0) in
  reachable w ∧
  ∀ l c, heap w !! l = Some c → (length (buf c) ≤ cap c)%nat.
Proof.
  intros w.
  assert (Hr : reachable w) by apply run_reachable, reachable_new.
  split; [exact Hr|]. intros l c Hl.
  destruct (queues_are_bounded w Hr) as [_ H].
  exact (proj2 (proj2 (H l c Hl))).
Defined.

(** X6.  Every key in the store had an [expire] goroutine started for it,
    and every key an [expire] goroutine was started for passed [validate]
    (so the goroutine's own [Subscribe] to the key passes the guard). *)
Theorem stored_keys_expire (w : World) :
  reachable w →
  (∀ key, is_Some (values (db w) !! key) → key ∈ expiring w) ∧
  (∀ key, key ∈ expiring w → validate key = Ok ()).
Proof.
  induction 1 as [b e|w o r w' Hr [IH1 IH2] He].
  { split.
    - intros key [x Hx]. simpl in Hx. by rewrite lookup_empty in Hx.
    - intros key Hk. by apply elem_of_nil in Hk. }
  assert (Hstored : ∀ k x h',
    validate k = Ok () → w' = stored k x h' w →
    (∀ key, is_Some (values (db w') !! key) → key ∈ expiring w') ∧
    (∀ key, key ∈ expiring w' → validate key = Ok ())).
  { intros k x h' Hv ->. unfold stored.
    destruct (values (db w) !! k) as [x0|] eqn:Hk; simpl; split.
    - intros key. destruct (decide (k = key)) as [<-|Hne].
      + intros _. apply IH1. by rewrite Hk.
      + rewrite lookup_insert_ne by done. apply IH1.
    - done.
    - intros key. destruct (decide (k = key)) as [<-|Hne]; [set_solver|].
      rewrite lookup_insert_ne by done. intros Hin. apply IH1 in Hin.
      set_solver.
    - intros key [->|Hin]%elem_of_cons; [done | by apply IH2]. }
  destruct o as [k|k v|k v rev|k|p|c|c]; simpl in He.
  - destruct (Database_Get k w) as [?| |]; simpl in He; [|done..].
    by injection He as <- <-.
  - destruct (Database_Set k v w) as [w1| |] eqn:Hs; simpl in He; [|done..].
    injection He as <- <-.
    destruct (Database_Set_inv k v w w1 Hs) as (Hv & h' & Hw & _). eauto.
  - destruct (Database_Update k v rev w) as [[ok w1]| |] eqn:Hu;
      simpl in He; [|done..].
    injection He as <- <-.
    pose proof (Database_Update_inv k v rev w w1 ok Hu) as [Hv Hi].
    destruct ok.
    + destruct Hi as (_ & h' & Hw & _). eauto.
    + by destruct Hi as [_ ->].
  - injection He as <- <-. unfold Database_Delete. simpl. split; [|done].
    intros key [x Hx]. apply lookup_delete_Some in Hx as [_ Hx].
    apply IH1. by rewrite Hx.
  - destruct (Database_Subscribe p w) as [[c w1]| |] eqn:Hs; simpl in He;
      [|done..].
    injection He as <- <-.
    by destruct (Database_Subscribe_inv p w w1 c Hs) as (_ & _ & _ & _ & ->).
  - injection He as <- <-. unfold Database_Unsubscribe.
    destruct (unsubscribe_frame c w) as (-> & _ & _ & ->). done.
  - destruct (recv c (heap w)) as [[u h]|]; by injection He as <- <-.
Qed.

Lemma stored_keys_expire_witness :
  let w := run [OpSet "/fib" "1"; OpDelete "/fib"; OpUpdate "/fib" "2" 0;
                OpSet "/x" "3"] (NewDatabase 0 0) in
  reachable w ∧ is_Some (values (db w) !! "/fib") ∧ "/fib" ∈ expiring w.
Proof.
  intros w.
  assert (Hr : reachable w) by apply run_reachable, reachable_new.
  assert (Hk : is_Some (values (db w) !! "/fib")) by (vm_compute; eauto).
  split_and!; [exact Hr | exact Hk |].
  exact (proj1 (stored_keys_expire w Hr) "/fib" Hk).
Defined.

(** X7.  Revisions do not survive a [Delete]: after it [Get] finds
    nothing, [Set] stores revision 0 again and starts one more [expire]
    goroutine for the key, and [Update] succeeds iff the expected revision
    is 0. *)
Theorem delete_then_write (key : string) (w : World) :
  validate key = Ok () →
  Database_Get key (Database_Delete key w) = Ok ("", 0, false) ∧
  (∀ val, ∃ w', Database_Set key val (Database_Delete key w) = Ok w' ∧
     Database_Get key w' = Ok (val, 0, true) ∧
     expiring w' = key :: expiring w) ∧
  (∀ val rev, ∃ ok w',
     Database_Update key val rev (Database_Delete key w) = Ok (ok, w') ∧
     (ok = true ↔ rev = 0)).
Proof.
  intros Hv. set (w1 := Database_Delete key w).
  assert (Hnone : values (db w1) !! key = None) by apply lookup_delete_eq.
  assert (Hcur : int_add (current key w1) 1 = 0).
  { unfold current. by rewrite Hnone. }
  split_and!.
  - unfold Database_Get, get. by rewrite Hv, Hnone.
  - intros val.
    destruct (Database_Set_spec key val w1 Hv) as (h' & Hs & _).
    eexists. split; [exact Hs|]. rewrite Hcur. split.
    + unfold Database_Get, get.
      by rewrite Hv, stored_values, lookup_insert_eq.
    + unfold stored. by rewrite Hnone.
  - intros val rev.
    pose proof (Database_Update_spec key val rev w1 Hv) as Hu.
    rewrite Hcur in Hu. destruct (Z.eqb_spec 0 rev) as [Heq|Hne].
    + destruct Hu as (h' & Hu & _). by eexists true, _.
    + eexists false, _. split; [exact Hu|]. split; [done | congruence].
Qed.

Lemma delete_then_write_witness :
  let w := run [OpSet "/fib" "1"; OpSet "/fib" "2"] (NewDatabase 0 0) in
  validate "/fib" = Ok () ∧
  current "/fib" w = 1 ∧
  Database_Get "/fib" (Database_Delete "/fib" w) = Ok ("", 0, false).
Proof.
  intros w. split_and!; [reflexivity | vm_compute; reflexivity |].
  exact (proj1 (delete_then_write "/fib" w eq_refl)).
Defined.

(** X8.  A handle only ever holds events of keys under its path: in every
    reachable world, each event queued in a registered handle is for a key
    that passed [validate] and has the handle's path among the prefixes
    [notify] visits for it. *)
Theorem only_matching_events (w : World) :
  reachable w →
  ∀ l s c u, subscribers (db w) !! Some l = Some s → heap w !! l = Some c →
    u ∈ buf c →
    validate (Key u) = Ok () ∧ path s ∈ prefixes (Key u).
Proof.
  induction 1 as [b e|w o r w' Hr IH He]; intros l s c u Hs Hl Hu.
  { simpl in Hs. by rewrite lookup_empty in Hs. }
  pose proof (reachable_registry_ok w Hr) as Hok.
  destruct (exec_subscribers o r w w' _ s He Hs)
    as [Hold|(p & -> & -> & -> & [= ->])].
  - destruct (exec_heap_cases o r w w' l Hok He)
      as [Hsame|[(k & c0 & s0 & _ & Hv & Hc0 & Hs0 & Hin & Hnew)
                |[(c0 & u0 & rest & _ & _ & Hc0 & Hb & Hnew)
                 |(p & _ & _ & _ & _ & Hnone & _)]]].
    + rewrite Hsame in Hl. by eapply IH.
    + rewrite Hnew in Hl. injection Hl as <-.
      rewrite Hold in Hs0. injection Hs0 as <-.
      unfold try_send in Hu.
      destruct (length (buf c0) <? cap c0)%nat; [|by eapply IH].
      simpl in Hu. apply elem_of_app in Hu as [Hu|Hu]; [by eapply IH|].
      apply list_elem_of_singleton in Hu as ->. done.
    + rewrite Hnew in Hl. injection Hl as <-. simpl in Hu.
      eapply IH; [done | done |]. rewrite Hb. by right.
    + congruence.
  - pose proof (is_fresh (dom (heap w))) as Hfresh.
    apply not_elem_of_dom in Hfresh.
    destruct (exec_heap_cases (OpSubscribe p)
                (RSubscribe (Some (fresh (dom (heap w))))) w w'
                (fresh (dom (heap w))) Hok He)
      as [Hsame|[(k & c0 & s0 & _ & _ & Hc0 & _)
                |[(c0 & u0 & rest & _ & _ & Hc0 & _)
                 |(p' & _ & _ & _ & _ & _ & Hnew)]]]; try congruence.
    rewrite Hnew in Hl. injection Hl as <-. by apply elem_of_nil in Hu.
Qed.

Lemma only_matching_events_witness :
  let w := run [OpSubscribe "/a/"; OpSet "/a/b/c" "1"; OpSet "/x" "2"]
             (NewDatabase 0 0) in
  let u := {| Key := "/a/b/c"; Value := "1"; Revision := 0 |} in
  reachable w ∧
  subscribers (db w) !! Some 1%positive
  = Some {| path := "/a/"; ch := Some 1%positive |} ∧
  heap w !! 1%positive = Some {| cap := 64; buf := [u] |} ∧
  "/a/" ∈ prefixes (Key u).
Proof.
  intros w u.
  assert (Hr : reachable w) by apply run_reachable, reachable_new.
  assert (Hs : subscribers (db w) !! Some 1%positive
               = Some {| path := "/a/"; ch := Some 1%positive |})
    by (vm_compute; reflexivity).
  assert (Hl : heap w !! 1%positive = Some {| cap := 64; buf := [u] |})
    by (vm_compute; reflexivity).
  split_and!; [exact Hr | exact Hs | exact Hl |].
  refine (proj2 (only_matching_events w Hr 1%positive _ _ u Hs Hl _)).
  simpl. by left.
Defined.

(** * Key syntax *)

Section bytes.

Lemma byte_of_range (a : ascii) : 0 ≤ byte_of a < 256.
Proof.
  unfold byte_of. pose proof (N_ascii_bounded a). lia.
Qed.

Lemma byte_of_slash (a : ascii) : byte_of a = 47 ↔ a = "/"%char.
Proof.
  split; [|by intros ->]. unfold byte_of. intros Ha.
  rewrite <- (ascii_N_embedding a).
  replace (N_of_ascii a) with 47%N by lia. done.
Qed.

Lemma get_lt (k : nat) (s : string) (a : ascii) :
  String.get k s = Some a → (k < String.length s)%nat.
Proof.
  revert k; induction s as [|x s IH]; intros k Hk; simpl in *; [done|].
  destruct k; [lia|]. apply IH in Hk. lia.
Qed.

Lemma get_in_range (k : nat) (s : string) :
  (k < String.length s)%nat → ∃ a, String.get k s = Some a.
Proof.
  revert k; induction s as [|x s IH]; intros k Hk; simpl in *; [lia|].
  destruct k; [by eexists | apply IH; lia].
Qed.

Lemma substring_length (n m : nat) (s : string) :
  (n + m ≤ String.length s)%nat → String.length (substring n m s) = m.
Proof.
  revert n m; induction s as [|x s IH]; intros [|n] [|m] Hnm; simpl in *;
    try done; try lia.
  - f_equal. apply (IH 0%nat). lia.
  - apply IH. lia.
  - apply IH. lia.
Qed.

Lemma byte_at_get (s : string) (i : nat) (a : ascii) :
  String.get i s = Some a → byte_at s (Z.of_nat i) = Ok (byte_of a).
Proof.
  intros Hget. pose proof (get_lt i s a Hget). unfold byte_at.
  destruct (Z.ltb_spec (Z.of_nat i) 0); [lia|].
  destruct (Z.leb_spec (Z.of_nat (String.length s)) (Z.of_nat i)); [lia|].
  simpl. by rewrite Nat2Z.id, Hget.
Qed.

Lemma byte_at_negative (s : string) :
  byte_at s (Z.of_nat 0 - 1) = Panic "index out of range".
Proof. reflexivity. Qed.

(** What [decode_rune] yields on a string whose first byte is [a]: at
    least one byte and no more than there are; the rune is a slash only
    for the byte [/]; and the bytes after the first of a longer sequence
    are not slashes. *)
Lemma decode_rune_spec (s : string) (a : ascii) :
  String.get 0 s = Some a →
  (1 ≤ (decode_rune s).2 ≤ String.length s)%nat ∧
  ((decode_rune s).1 = 47 ↔ a = "/"%char) ∧
  (a = "/"%char → (decode_rune s).2 = 1%nat) ∧
  (∀ k, (0 < k < (decode_rune s).2)%nat →
        String.get k s ≠ Some "/"%char).
Proof.
  intros H0. unfold decode_rune. rewrite H0.
  pose proof (byte_of_range a) as Ha. pose proof (byte_of_slash a) as Hs.
  pose proof (get_lt 0 s a H0) as Hl0.
  assert (Hb : ∀ k, 128 ≤ match String.get k s with
                           | Some x => byte_of x | None => -1 end →
                    (k < String.length s)%nat ∧
                    String.get k s ≠ Some "/"%char).
  { intros k. destruct (String.get k s) as [x|] eqn:Hk; [|lia].
    intros Hx. split; [by eapply get_lt|]. intros [= ->]. simpl in Hx.
    unfold byte_of in Hx. simpl in Hx. lia. }
  pose proof (Hb 1%nat) as H1. pose proof (Hb 2%nat) as H2.
  pose proof (Hb 3%nat) as H3. clear Hb.
  set (b0 := byte_of a) in *.
  set (b1 := match String.get 1 s with
             | Some x => byte_of x | None => -1 end) in *.
  set (b2 := match String.get 2 s with
             | Some x => byte_of x | None => -1 end) in *.
  set (b3 := match String.get 3 s with
             | Some x => byte_of x | None => -1 end) in *.
  clearbody b0 b1 b2 b3. unfold is_cont, RuneError.
  assert (Hone : ∀ r : Z, (r = 47 ↔ a = "/"%char) →
    (1 ≤ (r, 1%nat).2 ≤ String.length s)%nat ∧
    ((r, 1%nat).1 = 47 ↔ a = "/"%char) ∧
    (a = "/"%char → (r, 1%nat).2 = 1%nat) ∧
    (∀ k, (0 < k < (r, 1%nat).2)%nat → String.get k s ≠ Some "/"%char)).
  { intros r Hr. simpl. split; [lia|]. split; [done|]. split; [done|].
    intros; lia. }
  assert (Herr : 128 ≤ b0 → 65533 = 47 ↔ a = "/"%char).
  { intros Hb0. split; [lia|]. intros Hx. apply Hs in Hx. lia. }
  assert (Hmany : ∀ (r : Z) (n : nat),
    128 ≤ b0 → 128 ≤ r → (2 ≤ n ≤ String.length s)%nat →
    (∀ k, (0 < k < n)%nat → String.get k s ≠ Some "/"%char) →
    (1 ≤ (r, n).2 ≤ String.length s)%nat ∧
    ((r, n).1 = 47 ↔ a = "/"%char) ∧
    (a = "/"%char → (r, n).2 = 1%nat) ∧
    (∀ k, (0 < k < (r, n).2)%nat → String.get k s ≠ Some "/"%char)).
  { intros r n Hb0 Hr Hn Hk. simpl. split; [lia|].
    split; [split; [lia | intros Hx; apply Hs in Hx; lia]|].
    split; [intros Hx; apply Hs in Hx; lia | done]. }
  destruct (Z.ltb_spec b0 128) as [Hlt|Hge]; [by apply Hone|].
  destruct ((194 <=? b0) && (b0 <=? 223)) eqn:E2.
  { apply andb_true_iff in E2 as [E2a%Z.leb_le E2b%Z.leb_le].
    destruct ((128 <=? b1) && (b1 <=? 191)) eqn:C1; [|by apply Hone, Herr].
    apply andb_true_iff in C1 as [C1a%Z.leb_le C1b%Z.leb_le].
    destruct (H1 C1a). apply Hmany; [lia | lia | lia |].
    intros k Hk. by replace k with 1%nat by lia. }
  destruct ((224 <=? b0) && (b0 <=? 239)) eqn:E3.
  { apply andb_true_iff in E3 as [E3a%Z.leb_le E3b%Z.leb_le].
    match goal with
    | |- context [if ?c then (?r, 3%nat) else _] =>
        destruct c eqn:C3; [|by apply Hone, Herr]
    end.
    apply andb_true_iff in C3 as [C3 C3c].
    apply andb_true_iff in C3 as [C3a%Z.leb_le C3b%Z.leb_le].
    apply andb_true_iff in C3c as [C3c%Z.leb_le C3d%Z.leb_le].
    assert (128 ≤ b1) by (destruct (b0 =? 224); lia).
    assert (b0 = 224 → 160 ≤ b1)
      by (intros ->; by rewrite Z.eqb_refl in C3a).
    destruct (H1 ltac:(done)), (H2 C3c).
    apply Hmany; [lia | lia | lia |].
    intros k Hk. destruct k as [|[|[|k]]]; [lia | done | done | lia]. }
  destruct ((240 <=? b0) && (b0 <=? 244)) eqn:E4; [|by apply Hone, Herr].
  apply andb_true_iff in E4 as [E4a%Z.leb_le E4b%Z.leb_le].
  match goal with
  | |- context [if ?c then (?r, 4%nat) else _] =>
      destruct c eqn:C4; [|by apply Hone, Herr]
  end.
  apply andb_true_iff in C4 as [C4 C4e].
  apply andb_true_iff in C4 as [C4 C4c].
  apply andb_true_iff in C4 as [C4a%Z.leb_le C4b%Z.leb_le].
  apply andb_true_iff in C4c as [C4c%Z.leb_le C4d%Z.leb_le].
  apply andb_true_iff in C4e as [C4e%Z.leb_le C4f%Z.leb_le].
  assert (128 ≤ b1) by (destruct (b0 =? 240); lia).
  assert (b0 = 240 → 144 ≤ b1)
    by (intros ->; by rewrite Z.eqb_refl in C4a).
  destruct (H1 ltac:(done)), (H2 C4c), (H3 C4e).
  apply Hmany; [lia | lia | lia |].
  intros k Hk. destruct k as [|[|[|[|k]]]]; [lia | done | done | done | lia].
Qed.

End bytes.

Section key_syntax.

Variable IsLetter IsDigit : Z → bool.

Lemma substring_get (i k : nat) (s : string) :
  (i + k < String.length s)%nat →
  String.get k (substring i (String.length s - i) s) = String.get (i + k) s.
Proof.
  intros Hk. rewrite substring_correct1 by lia. f_equal. lia.
Qed.

(** The loop of [validKey] from an index past the first byte: it returns,
    and when it runs to the end, no slash from there on follows a slash. *)
Lemma validKey_loop_from (fuel : nat) (tail : string) (i : nat) :
  (1 ≤ i)%nat → (String.length tail - i < fuel)%nat →
  ∃ b, validKey_loop IsLetter IsDigit fuel tail i = Ok b ∧
    (b = true → ∀ j, (i ≤ j)%nat → String.get j tail = Some "/"%char →
                     String.get (j - 1) tail ≠ Some "/"%char).
Proof.
  revert i. induction fuel as [|fuel IH]; intros i Hi Hfuel.
  { lia. }
  simpl. destruct (Nat.leb_spec (String.length tail) i) as [Hend|Hin].
  { exists true. split; [done|].
    intros _ j Hj Hget. apply get_lt in Hget. lia. }
  set (rest := substring i (String.length tail - i) tail).
  destruct (get_in_range i tail Hin) as [a Ha].
  assert (Hrest0 : String.get 0 rest = Some a).
  { unfold rest. rewrite substring_get by lia. by rewrite Nat.add_0_r. }
  assert (Hlen : String.length rest = (String.length tail - i)%nat).
  { unfold rest. apply substring_length. lia. }
  destruct (decode_rune_spec rest a Hrest0) as (Hw & Hr & Hw1 & Hk).
  destruct (decode_rune rest) as [r width]. simpl in *.
  assert (Hskip : ∀ b, validKey_loop IsLetter IsDigit fuel tail (i + width)
                       = Ok b →
            (b = true → ∀ j, (i + width ≤ j)%nat →
               String.get j tail = Some "/"%char →
               String.get (j - 1) tail ≠ Some "/"%char) →
            String.get i tail ≠ Some "/"%char ∨
            String.get (i - 1) tail ≠ Some "/"%char →
            b = true → ∀ j, (i ≤ j)%nat →
              String.get j tail = Some "/"%char →
              String.get (j - 1) tail ≠ Some "/"%char).
  { intros b _ Hrec Hhere Hb j Hj Hget.
    destruct (decide (i + width ≤ j)%nat) as [Hfar|Hnear];
      [by apply Hrec|].
    destruct (decide (j = i)) as [->|Hne].
    - destruct Hhere as [Hhere|Hhere]; [by destruct Hhere | done].
    - exfalso. apply (Hk (j - i)%nat); [lia|].
      unfold rest. rewrite substring_get by lia.
      by replace (i + (j - i))%nat with j by lia. }
  destruct (IH (i + width)%nat) as (b & Hloop & Hrec); [lia | lia|].
  destruct (Z.eqb_spec r 47) as [Hslash|Hnot].
  - apply Hr in Hslash as ->.
    destruct (get_in_range (i - 1) tail) as [p Hp]; [lia|].
    replace (Z.of_nat i - 1) with (Z.of_nat (i - 1)) by lia.
    rewrite (byte_at_get tail (i - 1) p Hp). simpl.
    destruct (Z.eqb_spec (byte_of p) 47) as [Hp47|Hp47].
    + exists false. split; [done|]. done.
    + exists b. split; [done|]. apply (Hskip b Hloop Hrec). right.
      rewrite Hp. intros [= ->]. by apply Hp47.
  - assert (Ha' : String.get i tail ≠ Some "/"%char).
    { rewrite Ha. intros [= ->]. by apply Hnot, Hr. }
    destruct (negb (IsLetter r) && negb (IsDigit r) && negb (r =? 45)
              && negb (r =? 95)).
    + exists false. split; done.
    + exists b. split; [done|]. apply (Hskip b Hloop Hrec). by left.
Qed.

(** The loop of [validKey] from the start of [tail]: a slash at index 0
    makes [tail[i-1]] panic; otherwise the loop returns, and when it runs
    to the end no slash of [tail] is first or follows a slash. *)
Lemma validKey_loop_start (tail : string) :
  (String.get 0 tail = Some "/"%char →
   validKey_loop IsLetter IsDigit (S (String.length tail)) tail 0
   = Panic "index out of range") ∧
  (String.get 0 tail ≠ Some "/"%char →
   ∃ b, validKey_loop IsLetter IsDigit (S (String.length tail)) tail 0
        = Ok b ∧
     (b = true → ∀ j, String.get j tail = Some "/"%char →
                      (1 ≤ j)%nat ∧
                      String.get (j - 1) tail ≠ Some "/"%char)).
Proof.
  destruct tail as [|a t].
  { split; [done|]. intros _. exists true. split; [done|].
    intros _ j Hj. by destruct j. }
  set (tail := String a t).
  assert (Hrest : substring 0 (String.length tail - 0) tail = tail).
  { rewrite Nat.sub_0_r. clear. induction tail as [|x s IH]; simpl;
      [done | by rewrite IH]. }
  destruct (decode_rune_spec tail a eq_refl) as (Hw & Hr & Hw1 & Hk).
  cbn [validKey_loop]. rewrite Hrest.
  destruct (Nat.leb_spec (String.length tail) 0) as [Hend|_];
    [simpl in Hend; lia|].
  destruct (decode_rune tail) as [r width]. cbn [fst snd] in Hw, Hr, Hw1, Hk.
  split.
  - intros [= ->]. destruct (Z.eqb_spec r 47) as [_|Hnot]; [done|].
    by destruct Hnot; apply Hr.
  - intros Hne. destruct (Z.eqb_spec r 47) as [Hslash|Hnot].
    { apply Hr in Hslash as ->. done. }
    destruct (negb (IsLetter r) && negb (IsDigit r) && negb (r =? 45)
              && negb (r =? 95)).
    { exists false. split; done. }
    destruct (validKey_loop_from (String.length tail) tail (0 + width))
      as (b & Hloop & Hrec); [lia | lia|].
    exists b. split; [done|]. intros Hb j Hj.
    destruct (decide (width ≤ j)%nat) as [Hfar|Hnear].
    + split; [lia|]. apply Hrec; [done | lia | done].
    + destruct j as [|j]; [done|].
      exfalso. apply (Hk (S j)); [lia | done].
Qed.

Lemma bind_Ok {A B : Type} (a : A) (k : A → res B) : Ok a ≫= k = k a.
Proof. reflexivity. Qed.

Lemma slice_from_1 (key : string) :
  (1 ≤ String.length key)%nat →
  slice_from key 1 = Ok (substring 1 (String.length key - 1) key).
Proof.
  intros Hl. unfold slice_from.
  destruct (Z.ltb_spec (Z.of_nat (String.length key)) 1); [lia|]. done.
Qed.

(** [validKey], case by case. *)
Lemma validKey_cases (key : string) :
  (validKey IsLetter IsDigit key = Panic "index out of range" ∧
   String.get 0 key = Some "/"%char ∧ String.get 1 key = Some "/"%char) ∨
  (∃ b, validKey IsLetter IsDigit key = Ok b ∧
     ¬ (String.get 0 key = Some "/"%char ∧
        String.get 1 key = Some "/"%char) ∧
     (b = true →
      (2 ≤ String.length key)%nat ∧ String.get 0 key = Some "/"%char ∧
      String.get (String.length key - 1) key ≠ Some "/"%char ∧
      no_double_slash key)).
Proof.
  unfold validKey.
  destruct (Nat.ltb_spec (String.length key) 2) as [Hshort|Hlong].
  { right. exists false. split_and!; [done | | done].
    intros [_ H1]. apply get_lt in H1. lia. }
  destruct (get_in_range 0 key) as [a0 H0]; [lia|].
  pose proof (byte_at_get key 0 a0 H0) as Hb0.
  change (Z.of_nat 0) with 0 in Hb0.
  rewrite Hb0, bind_Ok.
  destruct (Z.eqb_spec (byte_of a0) 47) as [Ha0|Ha0]; cbn [negb].
  2:{ right. exists false. split_and!; [done | | done].
      intros [H _]. rewrite H0 in H. injection H as ->. by apply Ha0. }
  apply byte_of_slash in Ha0 as ->.
  rewrite slice_from_1 by lia. rewrite bind_Ok.
  set (tail := substring 1 (String.length key - 1) key).
  assert (Hlen : String.length tail = (String.length key - 1)%nat).
  { unfold tail. apply substring_length. lia. }
  assert (Htail : ∀ j, (j < String.length tail)%nat →
                       String.get j tail = String.get (S j) key).
  { intros j Hj. unfold tail.
    rewrite (substring_get 1 j key) by lia. done. }
  assert (Htail' : ∀ j, String.get j tail = Some "/"%char →
                        String.get (S j) key = Some "/"%char).
  { intros j Hj. rewrite <- Htail; [done|]. by eapply get_lt. }
  destruct (validKey_loop_start tail) as [Hpanic Hok].
  destruct (decide (String.get 0 tail = Some "/"%char)) as [Hs|Hs].
  { left. rewrite (Hpanic Hs). split_and!; [done | done |].
    by apply Htail'. }
  right. destruct (Hok Hs) as (b & Hloop & Hb). rewrite Hloop, bind_Ok.
  assert (Hnot : ¬ (String.get 0 key = Some "/"%char ∧
                    String.get 1 key = Some "/"%char)).
  { intros [_ H1]. apply Hs. rewrite Htail; [done|]. lia. }
  destruct b; [|by exists false].
  destruct (get_in_range (String.length key - 1) key) as [z Hz]; [lia|].
  replace (Z.of_nat (String.length key) - 1)
    with (Z.of_nat (String.length key - 1)) by lia.
  rewrite (byte_at_get key _ z Hz). simpl.
  eexists. split; [done|]. split; [done|].
  intros Hlast. apply negb_true_iff in Hlast.
  split_and!; [done | done | |].
  - rewrite Hz. intros [= ->]. done.
  - intros i [Hi HSi].
    assert (HiT : String.get i tail = Some "/"%char).
    { rewrite Htail; [done|]. apply get_lt in HSi. lia. }
    destruct (Hb eq_refl i HiT) as [Hi1 Hprev].
    apply Hprev. rewrite Htail by (apply get_lt in HSi; lia).
    by replace (S (i - 1)) with i by lia.
Qed.

End key_syntax.

(** X9.  [validKey] returns a boolean on every string but those that start
    with two slashes: there the first rune of the tail is a slash and
    [tail[i-1]] is read at [i = 0], which panics. *)
Theorem validKey_panics_on_double_slash (IsLetter IsDigit : Z → bool)
    (key : string) :
  (validKey IsLetter IsDigit key = Panic "index out of range" ↔
   String.get 0 key = Some "/"%char ∧ String.get 1 key = Some "/"%char) ∧
  (¬ (String.get 0 key = Some "/"%char ∧
      String.get 1 key = Some "/"%char) →
   ∃ b, validKey IsLetter IsDigit key = Ok b).
Proof.
  destruct (validKey_cases IsLetter IsDigit key)
    as [(Hp & H0 & H1)|(b & Hb & Hnot & _)].
  - split; [done|]. intros Hn. by destruct Hn.
  - split; [|by eauto]. rewrite Hb. split; [done|]. intros H. by destruct Hnot.
Qed.

Lemma validKey_panics_on_double_slash_witness :
  (¬ (String.get 0 "/a/b" = Some "/"%char ∧
      String.get 1 "/a/b" = Some "/"%char)) ∧
  (∃ b, validKey (λ r, (97 <=? r) && (r <=? 122))
          (λ r, (48 <=? r) && (r <=? 57)) "/a/b" = Ok b) ∧
  validKey (λ r, (97 <=? r) && (r <=? 122))
    (λ r, (48 <=? r) && (r <=? 57)) "//a" = Panic "index out of range".
Proof.
  assert (Hn : ¬ (String.get 0 "/a/b" = Some "/"%char ∧
                  String.get 1 "/a/b" = Some "/"%char))
    by (intros [_ H]; discriminate H).
  split; [exact Hn|]. split.
  - exact (proj2 (validKey_panics_on_double_slash _ _ "/a/b") Hn).
  - apply (validKey_panics_on_double_slash _ _ "//a"). split; reflexivity.
Defined.

(** X10.  A key [validKey] accepts has at least two bytes, starts with a
    slash (so the engine's [validate] accepts it), does not end with a
    slash and has no two slashes in a row. *)
Theorem validKey_sound (IsLetter IsDigit : Z → bool) (key : string) :
  validKey IsLetter IsDigit key = Ok true →
  validate key = Ok () ∧ (2 ≤ String.length key)%nat ∧
  String.get (String.length key - 1) key ≠ Some "/"%char ∧
  no_double_slash key.
Proof.
  intros Hk.
  destruct (validKey_cases IsLetter IsDigit key)
    as [(Hp & _)|(b & Hb & _ & Htrue)]; [congruence|].
  rewrite Hk in Hb. injection Hb as <-.
  destruct (Htrue eq_refl) as (Hlen & H0 & Hlast & Hdd).
  split_and!; [by apply validate_Ok | done..].
Qed.

Lemma validKey_sound_witness :
  validKey (λ r, (97 <=? r) && (r <=? 122)) (λ r, (48 <=? r) && (r <=? 57))
    "/a/b-1" = Ok true ∧
  validate "/a/b-1" = Ok ().
Proof.
  assert (Hk : validKey (λ r, (97 <=? r) && (r <=? 122))
                 (λ r, (48 <=? r) && (r <=? 57)) "/a/b-1" = Ok true)
    by (vm_compute; reflexivity).
  split; [exact Hk|].
  exact (proj1 (validKey_sound _ _ "/a/b-1" Hk)).
Defined.

Section paths.

Variable IsLetter IsDigit : Z → bool.

Lemma get_append_l (k : nat) (p q : string) :
  (k < String.length p)%nat → String.get k (p +:+ q) = String.get k p.
Proof. intros Hk. symmetry. by apply append_correct1. Qed.

Lemma double_slash_append (p : string) :
  (String.get 0 (p +:+ "_") = Some "/"%char ∧
   String.get 1 (p +:+ "_") = Some "/"%char) ↔
  (String.get 0 p = Some "/"%char ∧ String.get 1 p = Some "/"%char).
Proof.
  destruct p as [|a [|b p]]; simpl; [split; intros [? ?]; done..|done].
Qed.

Lemma validPath_cases (p : string) :
  (validPath IsLetter IsDigit p = Panic "index out of range" ∧
   String.get 0 p = Some "/"%char ∧ String.get 1 p = Some "/"%char) ∨
  (∃ b, validPath IsLetter IsDigit p = Ok b ∧
     ¬ (String.get 0 p = Some "/"%char ∧
        String.get 1 p = Some "/"%char) ∧
     (b = true → String.get 0 p = Some "/"%char ∧ no_double_slash p)).
Proof.
  unfold validPath.
  destruct (Nat.eqb_spec (String.length p) 0) as [Hempty|Hlen].
  { right. exists false. split_and!; [done | | done].
    intros [H0 _]. apply get_lt in H0. lia. }
  destruct (get_in_range (String.length p - 1) p) as [z Hz]; [lia|].
  replace (Z.of_nat (String.length p) - 1)
    with (Z.of_nat (String.length p - 1)) by lia.
  rewrite (byte_at_get p _ z Hz), bind_Ok.
  destruct (Z.eqb_spec (byte_of z) 47) as [Hslash|Hnot].
  - destruct (validKey_cases IsLetter IsDigit (p +:+ "_"))
      as [(Hp & H0 & H1)|(b & Hb & Hn & Htrue)].
    + left. split; [done|]. apply double_slash_append. done.
    + right. exists b. split; [done|]. split.
      * intros H. apply Hn. by apply double_slash_append.
      * intros ->. destruct (Htrue eq_refl) as (_ & H0 & _ & Hdd).
        split.
        -- rewrite <- H0. symmetry. apply get_append_l. lia.
        -- intros i [Hi HSi]. apply (Hdd i).
           rewrite !get_append_l; [done|by eapply get_lt..].
  - destruct (validKey_cases IsLetter IsDigit p)
      as [(Hp & H0 & H1)|(b & Hb & Hn & Htrue)].
    + left. done.
    + right. exists b. split_and!; [done..|].
      intros ->. by destruct (Htrue eq_refl) as (_ & H0 & _ & Hdd).
Qed.

Lemma validPath_root : validPath IsLetter IsDigit "/" = Ok true.
Proof.
  vm_compute. by destruct (IsLetter 95), (IsDigit 95).
Qed.

End paths.

(** X11.  [validPath] panics exactly on the paths that start with two
    slashes.  A path it accepts starts with a slash, so [Subscribe] passes
    [validate] on it, and has no two slashes in a row.  It accepts every
    key [validKey] accepts, and it accepts the root [/] as well: the path
    check alone does not keep the root from being subscribed. *)
Theorem validPath_guard (IsLetter IsDigit : Z → bool) (p : string) :
  (validPath IsLetter IsDigit p = Panic "index out of range" ↔
   String.get 0 p = Some "/"%char ∧ String.get 1 p = Some "/"%char) ∧
  (validPath IsLetter IsDigit p = Ok true →
   validate p = Ok () ∧ no_double_slash p) ∧
  (validKey IsLetter IsDigit p = Ok true →
   validPath IsLetter IsDigit p = Ok true) ∧
  validPath IsLetter IsDigit "/" = Ok true.
Proof.
  split_and!.
  - destruct (validPath_cases IsLetter IsDigit p)
      as [(Hp & H0 & H1)|(b & Hb & Hnot & _)]; [done|].
    rewrite Hb. split; [done|]. intros H. by destruct Hnot.
  - intros Hp.
    destruct (validPath_cases IsLetter IsDigit p)
      as [(Hp' & _)|(b & Hb & _ & Htrue)]; [congruence|].
    rewrite Hp in Hb. injection Hb as <-.
    destruct (Htrue eq_refl) as [H0 Hdd]. split; [by apply validate_Ok|done].
  - intros Hk.
    destruct (validKey_sound IsLetter IsDigit p Hk) as (_ & Hlen & Hlast & _).
    unfold validPath.
    destruct (Nat.eqb_spec (String.length p) 0); [lia|].
    destruct (get_in_range (String.length p - 1) p) as [z Hz]; [lia|].
    replace (Z.of_nat (String.length p) - 1)
      with (Z.of_nat (String.length p - 1)) by lia.
    rewrite (byte_at_get p _ z Hz), bind_Ok.
    destruct (Z.eqb_spec (byte_of z) 47) as [Hslash|Hnot]; [|done].
    apply byte_of_slash in Hslash as ->. done.
  - apply validPath_root.
Qed.

Lemma validPath_guard_witness :
  validPath (λ r, (97 <=? r) && (r <=? 122)) (λ r, (48 <=? r) && (r <=? 57))
    "/a/b/" = Ok true ∧
  validate "/a/b/" = Ok ().
Proof.
  assert (Hk : validPath (λ r, (97 <=? r) && (r <=? 122))
                 (λ r, (48 <=? r) && (r <=? 57)) "/a/b/" = Ok true)
    by (vm_compute; reflexivity).
  split; [exact Hk|].
  destruct (validPath_guard (λ r, (97 <=? r) && (r <=? 122))
              (λ r, (48 <=? r) && (r <=? 57)) "/a/b/") as (_ & H & _).
  exact (proj1 (H Hk)).
Defined.

Section ascii_keys.

Variable IsLetter IsDigit : Z → bool.
Hypothesis IsLetter_ascii : ∀ r, 0 ≤ r < 128 → IsLetter r = letter_byte r.
Hypothesis IsDigit_ascii : ∀ r, 0 ≤ r < 128 → IsDigit r = digit_byte r.

Lemma decode_rune_ascii (s : string) (a : ascii) :
  String.get 0 s = Some a → byte_of a < 128 →
  decode_rune s = (byte_of a, 1%nat).
Proof.
  intros H0 Ha. unfold decode_rune. rewrite H0.
  by destruct (Z.ltb_spec (byte_of a) 128); [|lia].
Qed.

(** The test of the loop on a byte that is not a slash. *)
Lemma rejected_byte (a : ascii) :
  byte_of a < 128 →
  negb (IsLetter (byte_of a)) && negb (IsDigit (byte_of a))
  && negb (byte_of a =? 45) && negb (byte_of a =? 95)
  = negb (key_byte (byte_of a)).
Proof.
  intros Ha. pose proof (byte_of_range a).
  rewrite IsLetter_ascii, IsDigit_ascii by lia. unfold key_byte.
  by destruct (letter_byte _), (digit_byte _), (_ =? 45), (_ =? 95).
Qed.

(** The verdict of the loop on an ASCII tail: it runs to the end iff every
    slash from [i] on has a byte before it that is not a slash, and every
    other byte is a key byte. *)
Lemma validKey_loop_ascii (fuel : nat) (tail : string) (i : nat) :
  ascii_only tail → (String.length tail - i < fuel)%nat →
  validKey_loop IsLetter IsDigit fuel tail i = Ok true ↔
  ∀ j a, (i ≤ j)%nat → String.get j tail = Some a →
    if decide (a = "/"%char)
    then (1 ≤ j)%nat ∧ String.get (j - 1) tail ≠ Some "/"%char
    else key_byte (byte_of a) = true.
Proof.
  intros Hascii. revert i. induction fuel as [|fuel IH]; intros i Hfuel;
    [lia|].
  simpl. destruct (Nat.leb_spec (String.length tail) i) as [Hend|Hin].
  { split; [|done]. intros _ j a Hj Hget. apply get_lt in Hget. lia. }
  destruct (get_in_range i tail Hin) as [a Ha].
  pose proof (Hascii i a Ha) as Ha128.
  assert (Hrest0 : String.get 0 (substring i (String.length tail - i) tail)
                   = Some a).
  { rewrite substring_get by lia. by rewrite Nat.add_0_r. }
  rewrite (decode_rune_ascii _ a Hrest0 Ha128).
  assert (Hsplit : ∀ P : nat → ascii → Prop,
    (∀ j x, (i ≤ j)%nat → String.get j tail = Some x → P j x) ↔
    P i a ∧ (∀ j x, (i + 1 ≤ j)%nat → String.get j tail = Some x → P j x)).
  { intros P. split.
    - intros H. split; [by apply H|]. intros j x Hj. apply H. lia.
    - intros [H1 H2] j x Hj Hx. destruct (decide (j = i)) as [->|Hne].
      + rewrite Ha in Hx. by injection Hx as <-.
      + apply H2; [lia | done]. }
  rewrite Hsplit. rewrite <- (IH (i + 1)%nat) by lia.
  destruct (Z.eqb_spec (byte_of a) 47) as [Hslash|Hnot].
  - apply byte_of_slash in Hslash as ->. rewrite decide_True by done.
    destruct i as [|i].
    + simpl. split; [done|]. intros [[? _] _]. lia.
    + destruct (get_in_range i tail) as [p Hp]; [lia|].
      replace (Z.of_nat (S i) - 1) with (Z.of_nat i) by lia.
      rewrite (byte_at_get tail i p Hp), bind_Ok.
      replace (S i - 1)%nat with i by lia. rewrite Hp.
      destruct (Z.eqb_spec (byte_of p) 47) as [Hp47|Hp47].
      * apply byte_of_slash in Hp47 as ->. split; [done|].
        by intros [[_ ?] _].
      * split; [|by intros [_ ?]]. intros Hloop. split; [|done].
        split; [lia|]. intros [= ->]. by apply Hp47.
  - assert (Ha' : a ≠ "/"%char) by (intros ->; by apply Hnot).
    rewrite decide_False by done. rewrite rejected_byte by done.
    destruct (key_byte (byte_of a)); simpl.
    + split; [by intros ? | by intros [_ ?]].
    + split; [done | by intros [? _]].
Qed.

Lemma ascii_only_substring (n m : nat) (s : string) :
  ascii_only s → ascii_only (substring n m s).
Proof.
  intros Hs i a Hget.
  assert (i < m)%nat.
  { destruct (decide (i < m)%nat); [done|].
    rewrite substring_correct2 in Hget by lia. done. }
  rewrite substring_correct1 in Hget by done. by eapply Hs.
Qed.

Lemma validKey_ascii (key : string) :
  ascii_only key →
  validKey IsLetter IsDigit key = Ok true ↔ well_formed_key key.
Proof.
  intros Hascii. unfold validKey, well_formed_key.
  destruct (Nat.ltb_spec (String.length key) 2) as [Hshort|Hlong].
  { split; [done|]. intros [? _]. lia. }
  destruct (get_in_range 0 key) as [a0 H0]; [lia|].
  pose proof (byte_at_get key 0 a0 H0) as Hb0.
  change (Z.of_nat 0) with 0 in Hb0. rewrite Hb0, bind_Ok.
  destruct (Z.eqb_spec (byte_of a0) 47) as [Ha0|Ha0]; cbn [negb].
  2:{ split; [done|]. intros (_ & H & _). rewrite H0 in H.
      injection H as ->. by destruct Ha0. }
  apply byte_of_slash in Ha0 as ->.
  rewrite slice_from_1 by lia. rewrite bind_Ok.
  set (tail := substring 1 (String.length key - 1) key).
  assert (Hlen : String.length tail = (String.length key - 1)%nat).
  { unfold tail. apply substring_length. lia. }
  assert (Htail : ∀ j, (j < String.length tail)%nat →
                       String.get j tail = String.get (S j) key).
  { intros j Hj. unfold tail. by rewrite (substring_get 1 j key) by lia. }
  assert (Htail' : ∀ j a, String.get j tail = Some a →
                          String.get (S j) key = Some a).
  { intros j a Hj. rewrite <- Htail; [done|]. by eapply get_lt. }
  pose proof (validKey_loop_ascii (S (String.length tail)) tail 0
                (ascii_only_substring _ _ _ Hascii) ltac:(lia)) as Hloop.
  destruct (get_in_range (String.length key - 1) key) as [z Hz]; [lia|].
  replace (Z.of_nat (String.length key) - 1)
    with (Z.of_nat (String.length key - 1)) by lia.
  rewrite (byte_at_get key _ z Hz).
  split.
  - intros Hk.
    destruct (validKey_loop IsLetter IsDigit (S (String.length tail)) tail 0)
      as [[]| |] eqn:Hl; try done.
    rewrite bind_Ok in Hk. injection Hk as Hk%negb_true_iff.
    clear Hl. pose proof (proj1 Hloop eq_refl) as Hl. clear Hloop.
    split_and!; [done | done | | |].
    + rewrite Hz. intros [= ->]. done.
    + intros i [Hi HSi].
      assert (HiT : String.get i tail = Some "/"%char).
      { rewrite Htail; [done|]. apply get_lt in HSi. lia. }
      specialize (Hl i "/"%char ltac:(lia) HiT).
      rewrite decide_True in Hl by done. destruct Hl as [Hi1 Hprev].
      apply Hprev. rewrite Htail by (apply get_lt in HSi; lia).
      by replace (S (i - 1)) with i by lia.
    + intros i a Hget. destruct i as [|i].
      * left. rewrite H0 in Hget. by injection Hget.
      * assert (HiT : String.get i tail = Some a).
        { rewrite Htail; [done|]. apply get_lt in Hget. lia. }
        specialize (Hl i a ltac:(lia) HiT).
        destruct (decide (a = "/"%char)); [by left | by right].
  - intros (_ & _ & Hlast & Hdd & Hbytes).
    assert (Hl : validKey_loop IsLetter IsDigit (S (String.length tail))
                   tail 0 = Ok true).
    { apply Hloop. intros j a _ Hget.
      pose proof (Htail' j a Hget) as Hkey.
      destruct (decide (a = "/"%char)) as [->|Hne].
      - destruct j as [|j]; [by destruct (Hdd 0%nat)|].
        split; [lia|]. replace (S j - 1)%nat with j by lia.
        intros Hprev. apply Htail' in Hprev. by destruct (Hdd (S j)).
      - by destruct (Hbytes (S j) a Hkey). }
    rewrite Hl, !bind_Ok. do 2 f_equal. apply negb_true_iff.
    destruct (Z.eqb_spec (byte_of z) 47) as [Hz47|]; [|done].
    apply byte_of_slash in Hz47 as ->. done.
Qed.

End ascii_keys.

(** X12.  On ASCII strings [validKey] accepts exactly the key syntax of the
    README: a slash, then one or more segments of letters, digits, dashes
    and underscores separated by single slashes, and no slash at the end.
    ([unicode.IsLetter] and [unicode.IsDigit] enter through what they
    accept below [0x80]: the ASCII letters and the ASCII digits.) *)
Theorem validKey_accepts_key_syntax (IsLetter IsDigit : Z → bool)
    (key : string) :
  (∀ r, 0 ≤ r < 128 → IsLetter r = letter_byte r) →
  (∀ r, 0 ≤ r < 128 → IsDigit r = digit_byte r) →
  ascii_only key →
  validKey IsLetter IsDigit key = Ok true ↔ well_formed_key key.
Proof. intros HL HD Ha. by apply validKey_ascii. Qed.

Lemma validKey_accepts_key_syntax_witness :
  (∀ r, 0 ≤ r < 128 → letter_byte r = letter_byte r) ∧
  (∀ r, 0 ≤ r < 128 → digit_byte r = digit_byte r) ∧
  ascii_only "/a/b-1" ∧
  well_formed_key "/a/b-1".
Proof.
  assert (HL : ∀ r, 0 ≤ r < 128 → letter_byte r = letter_byte r) by done.
  assert (HD : ∀ r, 0 ≤ r < 128 → digit_byte r = digit_byte r) by done.
  assert (Ha : ascii_only "/a/b-1").
  { intros i a Hget.
    do 6 (destruct i as [|i]; [by injection Hget as <-|]). done. }
  split_and!; [exact HL | exact HD | exact Ha |].
  apply (validKey_accepts_key_syntax letter_byte digit_byte "/a/b-1" HL HD Ha).
  vm_compute. reflexivity.
Defined.

Section matching.

Lemma append_length (p q : string) :
  String.length (p +:+ q) = (String.length p + String.length q)%nat.
Proof. induction p as [|a p IH]; simpl; [done | by rewrite IH]. Qed.

Lemma substring_append (p q : string) :
  substring 0 (String.length p) (p +:+ q) = p.
Proof.
  induction p as [|a p IH]; simpl; [by destruct q | by rewrite IH].
Qed.

Lemma substring_whole (s : string) : substring 0 (String.length s) s = s.
Proof. induction s as [|a s IH]; simpl; [done | by rewrite IH]. Qed.

Lemma substring_split (n : nat) (s : string) :
  (n ≤ String.length s)%nat →
  s = substring 0 n s +:+ substring n (String.length s - n) s.
Proof.
  revert n. induction s as [|a s IH]; intros n Hn.
  { destruct n; [done | simpl in Hn; lia]. }
  destruct n as [|n].
  - rewrite Nat.sub_0_r, substring_whole. done.
  - simpl. unfold String.append; fold String.append.
    f_equal. apply IH. simpl in Hn. lia.
Qed.

End matching.

(** X13.  The matching rule of [notify]: a path is among the prefixes
    visited for a key iff it is the key itself, or it ends with a slash
    and the key continues after it. *)
Theorem notify_matching_rule (key p : string) :
  key ≠ "" →
  p ∈ prefixes key ↔
  p = key ∨ (ends_with_slash p ∧ ∃ rest, rest ≠ "" ∧ key = p +:+ rest).
Proof.
  intros Hne.
  destruct (prefixes_spec key Hne) as (tl & _ & -> & Htl & Hall & _).
  rewrite elem_of_cons. split.
  - intros [->|Hp]; [by left|]. right.
    destruct (Htl p Hp) as (Hend & _ & Hlen & Heq). split; [done|].
    exists (substring (String.length p)
              (String.length key - String.length p) key).
    split.
    + intros E.
      assert (Hl : String.length
                (substring (String.length p)
                   (String.length key - String.length p) key)
              = (String.length key - String.length p)%nat)
        by (apply substring_length; lia).
      rewrite E in Hl. simpl in Hl. lia.
    + etrans; [apply (substring_split (String.length p) key); lia|].
      by rewrite <- Heq.
  - intros [->|(Hend & rest & Hrest & ->)]; [by left|]. right.
    assert (Hp : (0 < String.length p)%nat).
    { destruct p; [done | simpl; lia]. }
    assert (Hr : (0 < String.length rest)%nat).
    { destruct rest; [done | simpl; lia]. }
    rewrite <- (substring_append p rest) at 1.
    replace (String.length p) with (S (String.length p - 1)) at 1 by lia.
    apply Hall.
    + rewrite append_length. lia.
    + rewrite get_append_l by lia. exact Hend.
Qed.

Lemma notify_matching_rule_witness :
  "/a/b/c" ≠ "" ∧ "/a/" ∈ prefixes "/a/b/c" ∧ ¬ ("/a" ∈ prefixes "/a/b/c").
Proof.
  assert (Hne : "/a/b/c" ≠ "") by done.
  split; [exact Hne|]. split.
  - apply (notify_matching_rule "/a/b/c" "/a/" Hne). right.
    split; [reflexivity|]. by exists "b/c".
  - intros Hin. apply (notify_matching_rule "/a/b/c" "/a" Hne) in Hin.
    destruct Hin as [Hin|[Hend _]]; discriminate.
Defined.

(** X14.  Go ranges over the handles of a level in an unspecified order,
    and the outcome of the level does not depend on it: every enumeration
    of the set without repetition leaves the same queues and the same set
    of handles seen. *)
Theorem notify_order_independent (u : Update) (m : gset chan)
    (l : list chan) (acc : gset chan * gmap loc channel) :
  NoDup l → (∀ x, x ∈ l ↔ x ∈ m) →
  foldl (deliver u) acc l = foldl (deliver u) acc (elements m).
Proof.
  intros Hnd Hl. apply deliver_order.
  apply NoDup_Permutation; [done | apply NoDup_elements|].
  intros x. by rewrite Hl, elem_of_elements.
Qed.

Lemma notify_order_independent_witness :
  let h : gmap loc channel :=
    {[1%positive := {| cap := 1; buf := [] |};
      2%positive := {| cap := 0; buf := [] |}]} in
  let u := {| Key := "/a"; Value := "1"; Revision := 0 |} in
  let m : gset chan := {[Some 1%positive; Some 2%positive; None]} in
  let l := [None; Some 2%positive; Some 1%positive] in
  NoDup l ∧ (∀ x, x ∈ l ↔ x ∈ m) ∧
  foldl (deliver u) (∅, h) l = foldl (deliver u) (∅, h) (elements m).
Proof.
  intros h u m l.
  assert (Hnd : NoDup l).
  { repeat (apply NoDup_cons; split; [set_solver|]). apply NoDup_nil. done. }
  assert (Hl : ∀ x, x ∈ l ↔ x ∈ m) by set_solver.
  split_and!; [exact Hnd | exact Hl |].
  exact (notify_order_independent u m l (∅, h) Hnd Hl).
Defined.

Section registrations.

Lemma unsubscribe_subscribers (c : chan) (w : World) :
  subscribers (db (unsubscribe c w)) = delete c (subscribers (db w)).
Proof.
  unfold unsubscribe.
  destruct (subscriptions (db w) !! _) as [m|];
    [destruct (size _ =? 0)%nat|]; done.
Qed.

End registrations.

(** X15.  In a reachable world [Subscribe] adds exactly one registration,
    the new handle under the path given, and [Unsubscribe] removes exactly
    the registration of its handle: every other handle is a member of the
    same sets as before. *)
Theorem registrations_change_one_at_a_time (w : World) :
  reachable w →
  (∀ p c w1, Database_Subscribe p w = Ok (c, w1) →
     subscribers (db w) !! c = None ∧
     ∀ c' q, (∃ m, subscriptions (db w1) !! q = Some m ∧ c' ∈ m) ↔
             (c' = c ∧ q = p) ∨
             (∃ m, subscriptions (db w) !! q = Some m ∧ c' ∈ m)) ∧
  (∀ c c' q,
     (∃ m, subscriptions (db (Database_Unsubscribe c w)) !! q = Some m ∧
           c' ∈ m) ↔
     c' ≠ c ∧ ∃ m, subscriptions (db w) !! q = Some m ∧ c' ∈ m).
Proof.
  intros Hr. pose proof (reachable_registry_ok w Hr) as Hok. split.
  - intros p c w1 Hsub.
    pose proof (registry_ok_subscribe p w c w1 Hsub Hok) as Hok1.
    destruct (Database_Subscribe_inv p w w1 c Hsub)
      as (_ & _ & -> & Hnew & ->).
    set (l := fresh (dom (heap w))) in *.
    assert (Hnone : subscribers (db w) !! Some l = None).
    { destruct (subscribers (db w) !! Some l) as [s|] eqn:Hs; [|done].
      destruct (registry_alloc w Hok _ _ Hs) as (l' & [= <-] & Hl').
      by apply not_elem_of_dom in Hnew. }
    split; [done|]. intros c' q.
    rewrite (registry_agree _ Hok1), (registry_agree _ Hok).
    unfold subscribe. simpl.
    destruct (decide (Some l = c')) as [<-|Hne].
    + rewrite lookup_insert_eq, Hnone. simpl. split.
      * intros [= <-]. by left.
      * intros [[_ ->]|?]; done.
    + rewrite lookup_insert_ne by done. split; [by right|].
      intros [[-> _]|?]; done.
  - intros c c' q. unfold Database_Unsubscribe.
    rewrite (registry_agree _ (registry_ok_unsubscribe c w Hok)).
    rewrite (registry_agree _ Hok), unsubscribe_subscribers.
    destruct (decide (c = c')) as [<-|Hne].
    + rewrite lookup_delete_eq. simpl. split; [done | by intros [? _]].
    + rewrite lookup_delete_ne by done. split; [done | by intros [_ ?]].
Qed.

Lemma registrations_change_one_at_a_time_witness :
  let w := run [OpSubscribe "/a/"; OpSubscribe "/a/"] (NewDatabase 0 0) in
  reachable w ∧
  ((∃ m, subscriptions (db (Database_Unsubscribe (Some 1%positive) w))
           !! "/a/" = Some m ∧ Some 2%positive ∈ m) ↔
   Some 2%positive ≠ Some 1%positive ∧
   ∃ m, subscriptions (db w) !! "/a/" = Some m ∧ Some 2%positive ∈ m).
Proof.
  intros w.
  assert (Hr : reachable w) by apply run_reachable, reachable_new.
  split; [exact Hr|].
  exact (proj2 (registrations_change_one_at_a_time w Hr) _ _ _).
Defined.
